(** * Piecewise-linear knot interpolation (Section4_1-Bayesian_Time_Series)

    A shallow embedding of the two [interpolate] functions of the notebook
    (the univariate one and the grouped one), of the NumPy operations they
    are written with, and of other computations of the notebook.

    Numbers.  The bodies are read twice.  Over the rationals ([Q], with
    [NonFinite] for the [inf]/[nan] of a division by zero) the arithmetic is
    exact; this reading carries what rounding has no part in: where the
    search lands, which elements are read, what is raised, and the values
    binary64 computes without rounding.  Over binary64 ([F64], on the
    primitive floats of Rocq) the univariate body rounds as [float64] does;
    this reading carries the floats the code returns, and the inputs on
    which an identity of exact arithmetic fails.  The notebook passes the
    knot values as a random variable of its model; here they are the numbers
    that variable stands for.

    Arrays.  A one-dimensional NumPy array is a list, a two-dimensional one a
    list of rows.  Indices are [Z], because the code computes [idx - 1] and
    NumPy gives a negative index a meaning.

    Exceptions.  A NumPy operation either returns or raises; [res] is the
    error monad the bodies are written in.

    The file has the definitions first: the NumPy operations, the two bodies
    as functions on arrays, the preconditions and formulas of the
    specification, the reading of the array code at one query, the
    univariate body on binary64 numbers, and then the other computations of
    the notebook: the knots and the call of [interpolate], the simulated
    AR(1) series, the innovations of the ARMA(1,1) model and the seasonal
    component of the structural model.  The properties follow. *)

From Stdlib Require Import List ZArith QArith Qminmax Qabs Lia Lqa Bool.
From Stdlib Require Import PrimFloat FloatOps SpecFloat.
Import ListNotations.

#[local] Set Warnings "-inexact-float".

(* ------------------------------------------------------------------ *)
(** ** Exceptions *)

Inductive exn : Type :=
| IndexError
| ValueError
| TypeError.

Inductive res (A : Type) : Type :=
| Ok (a : A)
| Raise (e : exn).

Arguments Ok {A} a.
Arguments Raise {A} e.

Definition bind {A B : Type} (m : res A) (k : A -> res B) : res B :=
  match m with
  | Ok a => k a
  | Raise e => Raise e
  end.

Notation "x <- m ;; k" := (bind m (fun x => k))
  (at level 61, m at next level, right associativity).

Fixpoint mapM {A B : Type} (f : A -> res B) (l : list A) : res (list B) :=
  match l with
  | [] => Ok []
  | a :: t => b <- f a ;; bs <- mapM f t ;; Ok (b :: bs)
  end.

(* ------------------------------------------------------------------ *)
(** ** Numbers *)

(** The value of an arithmetic expression over the rationals: a number, or
    the [inf]/[nan] left by a division by zero (NumPy warns and goes on). *)
Inductive fnum : Type :=
| Fin (q : Q)
| NonFinite.

Definition Qltb (a b : Q) : bool :=
  match a ?= b with
  | Lt => true
  | _ => false
  end.

(** [a / b] on floats: no exception, a non-finite value when [b] is zero. *)
Definition fdiv (a b : Q) : fnum :=
  if Qeq_bool b 0 then NonFinite else Fin (a / b).

Definition flift2 (f : Q -> Q -> Q) (a b : fnum) : fnum :=
  match a, b with
  | Fin p, Fin q => Fin (f p q)
  | _, _ => NonFinite
  end.

Definition fadd : fnum -> fnum -> fnum := flift2 Qplus.
Definition fsub : fnum -> fnum -> fnum := flift2 Qminus.
Definition fmul : fnum -> fnum -> fnum := flift2 Qmult.

(* ------------------------------------------------------------------ *)
(** ** NumPy arrays *)

Fixpoint zip_with {A B C : Type} (f : A -> B -> C)
         (a : list A) (b : list B) : list C :=
  match a, b with
  | u :: a', v :: b' => f u v :: zip_with f a' b'
  | _, _ => []
  end.

(** Broadcasting of two one-dimensional operands: equal lengths pair up, a
    length-one operand is stretched, anything else raises [e] ([ValueError]
    for arithmetic, [IndexError] for index arrays). *)
Definition broadcast {A B C : Type} (e : exn) (f : A -> B -> C)
           (a : list A) (b : list B) : res (list C) :=
  if Nat.eqb (length a) (length b) then Ok (zip_with f a b)
  else match a, b with
       | [u], _ => Ok (map (f u) b)
       | _, [v] => Ok (map (fun u => f u v) a)
       | _, _ => Raise e
       end.

(** [a[i]] for one integer: a negative [i] counts from the end, an index
    outside [-n, n) raises. *)
Definition getitem {A : Type} (a : list A) (i : Z) : res A :=
  let n := Z.of_nat (length a) in
  let j := if (i <? 0)%Z then (i + n)%Z else i in
  if ((0 <=? j)%Z && (j <? n)%Z)%bool then
    match nth_error a (Z.to_nat j) with
    | Some v => Ok v
    | None => Raise IndexError
    end
  else Raise IndexError.

(** [a[idx]] for an integer array [idx]. *)
Definition take {A : Type} (a : list A) (idx : list Z) : res (list A) :=
  mapM (getitem a) idx.

(** [y0[i, g]] on a two-dimensional array, for two integers. *)
Definition getitem2 {A : Type} (y0 : list (list A)) (i g : Z) : res A :=
  row <- getitem y0 i ;; getitem row g.

(** [y0[idx, group]] for two integer arrays: the index arrays are broadcast
    against each other, then entry [k] is [y0[idx[k], group[k]]]. *)
Definition take2 {A : Type} (y0 : list (list A)) (idx group : list Z)
  : res (list A) :=
  ij <- broadcast IndexError pair idx group ;;
  mapM (fun p => getitem2 y0 (fst p) (snd p)) ij.

(** [np.array(x)]: a new array with the contents of [x]. *)
Definition np_array {A : Type} (x : list A) : list A := x.

(** The loop of [np.searchsorted(a, v)] with the default [side='left']:
    a binary search of the window [lo, hi) that moves [lo] past every probed
    element smaller than [v].  The window shrinks at every probe, so [fuel]
    of at least [hi - lo] is never used up.  Each key is searched from the
    full window [0, n); NumPy starts from the window the previous key left
    when the keys come in ascending order, which finds the same index on a
    sorted array. *)
Fixpoint bisect_left (fuel : nat) (a : list Q) (v : Q) (lo hi : nat) : nat :=
  match fuel with
  | O => lo
  | S fuel' =>
      if Nat.ltb lo hi then
        let mid := (lo + (hi - lo) / 2)%nat in
        if Qltb (nth mid a 0) v
        then bisect_left fuel' a v (mid + 1) hi
        else bisect_left fuel' a v lo mid
      else lo
  end.

Definition searchsorted1 (a : list Q) (v : Q) : Z :=
  Z.of_nat (bisect_left (length a) a v 0 (length a)).

Definition searchsorted (a : list Q) (x : list Q) : list Z :=
  map (searchsorted1 a) x.

(** Arithmetic on arrays, as the operators of the code. *)
Definition arr_sub (a b : list Q) : res (list Q) :=
  broadcast ValueError Qminus a b.
Definition arr_add (a b : list Q) : res (list Q) :=
  broadcast ValueError Qplus a b.
Definition arr_div (a b : list Q) : res (list fnum) :=
  broadcast ValueError fdiv a b.
Definition arr_mulf (w : list fnum) (y : list Q) : res (list fnum) :=
  broadcast ValueError (fun u v => fmul u (Fin v)) w y.
Definition arr_addf (a b : list fnum) : res (list fnum) :=
  broadcast ValueError fadd a b.
(** [idx - 1] and [1 - wl]: a scalar against an array. *)
Definition idx_pred (idx : list Z) : list Z :=
  map (fun i => (i - 1)%Z) idx.
Definition one_minus (w : list fnum) : list fnum :=
  map (fsub (Fin 1)) w.

(* ------------------------------------------------------------------ *)
(** ** The two functions of the notebook *)

(** [def interpolate(x0, y0, x)] *)
Definition interpolate (x0 y0 x : list Q) : res (list fnum) :=
  let x := np_array x in
  let idx := searchsorted x0 x in
  l <- take x0 (idx_pred idx) ;;
  dl <- arr_sub x l ;;
  r <- take x0 idx ;;
  dr <- arr_sub r x ;;
  d <- arr_add dl dr ;;
  wl <- arr_div dr d ;;
  yl <- take y0 (idx_pred idx) ;;
  a <- arr_mulf wl yl ;;
  yr <- take y0 idx ;;
  b <- arr_mulf (one_minus wl) yr ;;
  arr_addf a b.

(** [def interpolate(x0, y0, x, group)] *)
Definition interpolate_grouped (x0 : list Q) (y0 : list (list Q))
           (x : list Q) (group : list Z) : res (list fnum) :=
  let x := np_array x in
  let group := np_array group in
  let idx := searchsorted x0 x in
  l <- take x0 (idx_pred idx) ;;
  dl <- arr_sub x l ;;
  r <- take x0 idx ;;
  dr <- arr_sub r x ;;
  d <- arr_add dl dr ;;
  wl <- arr_div dr d ;;
  yl <- take2 y0 (idx_pred idx) group ;;
  a <- arr_mulf wl yl ;;
  yr <- take2 y0 idx group ;;
  b <- arr_mulf (one_minus wl) yr ;;
  arr_addf a b.

(* ------------------------------------------------------------------ *)
(** ** Preconditions of the specification, as decidable checks *)

(** [x0[0] < x0[1] < ... < x0[n-1]] *)
Fixpoint increasing (l : list Q) : bool :=
  match l with
  | a :: t =>
      match t with
      | b :: _ => Qltb a b && increasing t
      | [] => true
      end
  | [] => true
  end.

(** The first and the last knot ([0] on the empty array, never consulted
    there). *)
Definition first_knot (x0 : list Q) : Q := nth 0 x0 0.
Definition last_knot (x0 : list Q) : Q := nth (length x0 - 1) x0 0.

(** [x0[0] < x <= x0[n-1]] *)
Definition in_range (x0 : list Q) (x : Q) : bool :=
  Qltb (first_knot x0) x && Qle_bool x (last_knot x0).

(** [x0[0] <= x <= x0[n-1]]: the range the specification allows. *)
Definition in_closed_range (x0 : list Q) (x : Q) : bool :=
  Qle_bool (first_knot x0) x && Qle_bool x (last_knot x0).

(** A table of [ncols] columns: every row has that length. *)
Definition table_shape (ncols : nat) (y0 : list (list Q)) : bool :=
  forallb (fun row => Nat.eqb (length row) ncols) y0.

(** [group] names a column: NumPy accepts [-ncols <= group < ncols]. *)
Definition column_index (ncols : nat) (g : Z) : bool :=
  ((- Z.of_nat ncols <=? g)%Z && (g <? Z.of_nat ncols)%Z)%bool.

(* ------------------------------------------------------------------ *)
(** ** The value the specification writes down *)

(** The smallest index whose knot is at least [x]: the insertion point the
    specification names. *)
Definition smallest_ge (x0 : list Q) (x : Q) (idx : nat) : Prop :=
  (idx < length x0)%nat /\
  x <= nth idx x0 0 /\
  forall j, (j < idx)%nat -> nth j x0 0 < x.

(** The weight [wl] and the result the specification writes down, at
    insertion point [idx]. *)
Definition spec_weight (x0 : list Q) (x : Q) (idx : nat) : Q :=
  (nth idx x0 0 - x) / (nth idx x0 0 - nth (idx - 1) x0 0).

Definition spec_value (x0 y0 : list Q) (x : Q) (idx : nat) : Q :=
  let wl := spec_weight x0 x idx in
  wl * nth (idx - 1) y0 0 + (1 - wl) * nth idx y0 0.

(** [y0[:, g]]: column [g] of the table. *)
Definition column (y0 : list (list Q)) (g : Z) : res (list Q) :=
  mapM (fun row => getitem row g) y0.

(* ------------------------------------------------------------------ *)
(** ** The computation at one query *)

(** The element [getitem] returns when it returns: the total reading of
    [a[i]], [d] outside the array. *)
Definition item {A : Type} (d : A) (a : list A) (i : Z) : A :=
  nth (Z.to_nat (if (i <? 0)%Z then (i + Z.of_nat (length a))%Z else i)) a d.

Definition ascending (a : list Q) : Prop :=
  forall i j, (i < j < length a)%nat -> nth i a 0 < nth j a 0.

(** What the array expressions of the two bodies compute at one position of
    the query array. *)
Definition weight_left (x0 : list Q) (x : Q) : fnum :=
  let idx := searchsorted1 x0 x in
  let dl := x - item 0 x0 (idx - 1) in
  let dr := item 0 x0 idx - x in
  let d := dl + dr in
  fdiv dr d.

Definition blend (wl : fnum) (yl yr : Q) : fnum :=
  fadd (fmul wl (Fin yl)) (fmul (fsub (Fin 1) wl) (Fin yr)).

Definition interp_at (x0 y0 : list Q) (x : Q) : fnum :=
  let idx := searchsorted1 x0 x in
  blend (weight_left x0 x) (item 0 y0 (idx - 1)) (item 0 y0 idx).

Definition interp_grouped_at (x0 : list Q) (y0 : list (list Q))
           (x : Q) (g : Z) : fnum :=
  let idx := searchsorted1 x0 x in
  blend (weight_left x0 x)
        (item 0 (item [] y0 (idx - 1)) g) (item 0 (item [] y0 idx) g).

(** The first six statements, which the two bodies share. *)
Definition left_weights (x0 x : list Q) : res (list fnum) :=
  let idx := searchsorted x0 x in
  l <- take x0 (idx_pred idx) ;;
  dl <- arr_sub x l ;;
  r <- take x0 idx ;;
  dr <- arr_sub r x ;;
  d <- arr_add dl dr ;;
  arr_div dr d.

(** [wl] between the knots [a] and [b], with the sum [dl + dr] of the code. *)
Definition weight_q (a b x : Q) : Q := (b - x) / ((x - a) + (b - x)).

Definition blend_q (w yl yr : Q) : Q := w * yl + (1 - w) * yr.

Definition value_at (x0 y0 : list Q) (x : Q) : Q :=
  let idx := searchsorted1 x0 x in
  blend_q (weight_q (item 0 x0 (idx - 1)) (item 0 x0 idx) x)
          (item 0 y0 (idx - 1)) (item 0 y0 idx).


(* ------------------------------------------------------------------ *)
(** ** The univariate function on binary64 numbers

    The body of [interpolate] once more, on the numbers NumPy computes
    with.  [float] is the IEEE 754 binary64 format of [float64], and the
    operations of [PrimFloat] round to nearest, ties to even, as the
    operators of the code do.  An overflow and a division by zero leave
    [inf] or [nan]; they raise nothing. *)

Module F64.

(** The order [np.searchsorted] keeps floats in: [<], with [nan] after
    every number. *)
Definition lt (a b : float) : bool :=
  (a <? b)%float || (is_nan b && negb (is_nan a)).

(** The loop of [np.searchsorted], as [bisect_left] above, with the
    comparison of floats. *)
Fixpoint bisect_left (fuel : nat) (a : list float) (v : float) (lo hi : nat)
  : nat :=
  match fuel with
  | O => lo
  | S fuel' =>
      if Nat.ltb lo hi then
        let mid := (lo + (hi - lo) / 2)%nat in
        if lt (nth mid a zero) v
        then bisect_left fuel' a v (mid + 1) hi
        else bisect_left fuel' a v lo mid
      else lo
  end.

Definition searchsorted1 (a : list float) (v : float) : Z :=
  Z.of_nat (bisect_left (length a) a v 0 (length a)).

Definition searchsorted (a : list float) (x : list float) : list Z :=
  map (searchsorted1 a) x.

(** [def interpolate(x0, y0, x)] *)
Definition interpolate (x0 y0 x : list float) : res (list float) :=
  let x := np_array x in
  let idx := searchsorted x0 x in
  l <- take x0 (idx_pred idx) ;;
  dl <- broadcast ValueError sub x l ;;
  r <- take x0 idx ;;
  dr <- broadcast ValueError sub r x ;;
  d <- broadcast ValueError add dl dr ;;
  wl <- broadcast ValueError div dr d ;;
  yl <- take y0 (idx_pred idx) ;;
  a <- broadcast ValueError mul wl yl ;;
  yr <- take y0 idx ;;
  b <- broadcast ValueError mul (map (sub 1) wl) yr ;;
  broadcast ValueError add a b.

(** The real number a float stands for; [0] for [inf] and [nan], which
    stand for none. *)
Definition toQ (f : float) : Q :=
  match Prim2SF f with
  | S754_finite s m e => inject_Z (if s then Z.neg m else Z.pos m) * 2 ^ e
  | _ => 0
  end.

Definition finite (f : float) : bool :=
  match Prim2SF f with
  | S754_zero _ | S754_finite _ _ _ => true
  | _ => false
  end.

(** The knots and the queries are numbers, and every comparison of the
    search has the outcome the order of those numbers gives it (as IEEE 754
    has it for all numbers but [nan]). *)
Definition exact_order (x0 xs : list float) : bool :=
  forallb finite x0 && forallb finite xs &&
  forallb (fun v =>
             forallb (fun a => Bool.eqb (lt a v) (Qltb (toQ a) (toQ v))) x0)
          xs.

(** What the array expressions compute at one position of the query
    array. *)
Definition interp_at (x0 y0 : list float) (x : float) : float :=
  let idx := searchsorted1 x0 x in
  let dl := (x - item zero x0 (idx - 1))%float in
  let dr := (item zero x0 idx - x)%float in
  let d := (dl + dr)%float in
  let wl := (dr / d)%float in
  (wl * item zero y0 (idx - 1) + (1 - wl) * item zero y0 idx)%float.

(** An operation on two floats that returns a number, and the very number
    the operation on real numbers gives: nothing was rounded away. *)
Definition exact2 (opf : float -> float -> float) (opq : Q -> Q -> Q)
           (a b : float) : bool :=
  finite (opf a b) && Qeq_bool (toQ (opf a b)) (opq (toQ a) (toQ b)).

(** None of the eight operations at one position of the query array
    rounds. *)
Definition unrounded (x0 y0 : list float) (x : float) : bool :=
  let idx := searchsorted1 x0 x in
  let xl := item zero x0 (idx - 1) in
  let xr := item zero x0 idx in
  let yl := item zero y0 (idx - 1) in
  let yr := item zero y0 idx in
  let dl := (x - xl)%float in
  let dr := (xr - x)%float in
  let d := (dl + dr)%float in
  let wl := (dr / d)%float in
  exact2 sub Qminus x xl && exact2 sub Qminus xr x &&
  exact2 add Qplus dl dr && exact2 div Qdiv dr d &&
  exact2 mul Qmult wl yl && exact2 sub Qminus 1 wl &&
  exact2 mul Qmult (1 - wl)%float yr &&
  exact2 add Qplus (wl * yl)%float ((1 - wl) * yr)%float.

End F64.

(* ------------------------------------------------------------------ *)
(** ** Shapes and orders *)

(** The length two one-dimensional operands of lengths [m] and [k]
    broadcast to, when they broadcast. *)
Definition broadcast_len (m k : nat) : nat :=
  if Nat.eqb m k then m else if Nat.eqb m 1 then k else m.

(* ------------------------------------------------------------------ *)
(** ** The knots of the notebook and the call of [interpolate]

    [nknots = 9], [knots = np.linspace(data.age.min(), data.age.max(),
    nknots)] and [p = interpolate(knots, y, age)]. *)

(** [np.arange(0, num)], as floats. *)
Definition arange (num : nat) : list Q :=
  map (fun i => inject_Z (Z.of_nat i)) (seq 0 num).

(** [y[-1] = v] on a non-empty array. *)
Definition set_last (y : list Q) (v : Q) : list Q := removelast y ++ [v].

(** [np.linspace(start, stop, num)] with the end point included, as NumPy
    computes it: the integers [0 .. num-1] times the step, plus [start], and
    the last entry overwritten with [stop].  A zero step takes the branch
    NumPy has for it. *)
Definition linspace (start stop : Q) (num : nat) : list Q :=
  let div := (num - 1)%nat in
  let y := arange num in
  let delta := stop - start in
  let y :=
    if Nat.ltb 0 div then
      let step := delta / inject_Z (Z.of_nat div) in
      if Qeq_bool step 0
      then map (fun v => v * delta)
               (map (fun v => v / inject_Z (Z.of_nat div)) y)
      else map (fun v => v * step) y
    else map (fun v => v * delta) y in
  let y := map (fun v => v + start) y in
  if Nat.ltb 1 num then set_last y stop else y.

(** The reductions [a.min()] and [a.max()] of a series with first element
    [u] and the rest [t]. *)
Fixpoint min_from (u : Q) (t : list Q) : Q :=
  match t with
  | [] => u
  | v :: t' => min_from (if Qltb v u then v else u) t'
  end.

Fixpoint max_from (u : Q) (t : list Q) : Q :=
  match t with
  | [] => u
  | v :: t' => max_from (if Qltb u v then v else u) t'
  end.

(** [None] on the empty series, where pandas answers [nan]. *)
Definition series_min (a : list Q) : option Q :=
  match a with
  | [] => None
  | u :: t => Some (min_from u t)
  end.

Definition series_max (a : list Q) : option Q :=
  match a with
  | [] => None
  | u :: t => Some (max_from u t)
  end.

Definition nknots : nat := 9.

(** [knots], for the ages of the data set. *)
Definition ghme_knots (age : list Q) : option (list Q) :=
  match series_min age, series_max age with
  | Some lo, Some hi => Some (linspace lo hi nknots)
  | _, _ => None
  end.

(** [p = interpolate(knots, y, age)] *)
Definition ghme_p (y age : list Q) : option (res (list fnum)) :=
  match ghme_knots age with
  | Some knots => Some (interpolate knots y age)
  | None => None
  end.

(* ------------------------------------------------------------------ *)
(** ** The simulated AR(1) series

    [y = np.zeros(T)] and the loop
    [for i in range(1, T): y[i] = 0.95 * y[i-1] + np.random.normal()]. *)

(** [a[i] = v] for one integer, with NumPy's reading of the index. *)
Definition setitem {A : Type} (a : list A) (i : Z) (v : A) : res (list A) :=
  let n := Z.of_nat (length a) in
  let j := if (i <? 0)%Z then (i + n)%Z else i in
  if ((0 <=? j)%Z && (j <? n)%Z)%bool then
    Ok (firstn (Z.to_nat j) a ++ v :: skipn (S (Z.to_nat j)) a)
  else Raise IndexError.

(** The body of the loop for the indices [idxs] in turn.  The state is the
    array [y] and the number [k] of values taken from the random generator
    so far; [draw k] is the value the generator hands out at its call
    number [k]. *)
Fixpoint ar1_loop (draw : nat -> Q) (idxs : list nat) (y : list Q) (k : nat)
  : res (list Q * nat) :=
  match idxs with
  | [] => Ok (y, k)
  | i :: rest =>
      prev <- getitem y (Z.of_nat i - 1) ;;
      y' <- setitem y (Z.of_nat i) ((95 # 100) * prev + draw k) ;;
      ar1_loop draw rest y' (S k)
  end.

(** [range(1, T)] *)
Definition range_from_1 (T : nat) : list nat := seq 1 (T - 1).

Definition ar1_simulate (draw : nat -> Q) (T : nat) : res (list Q * nat) :=
  ar1_loop draw (range_from_1 T) (repeat 0 T) 0.

(* ------------------------------------------------------------------ *)
(** ** The innovations of the ARMA(1,1) model

    [err0 = y[0] - (mu + rho * mu)], [calc_next] and the [scan] that runs it
    over the series. *)




(* ------------------------------------------------------------------ *)
(** ** The seasonal component of the structural model

    [n_years = int(T/S)] and
    [s = tt.concatenate([[-1*tt.sum(tau)], tau]*n_years) + tt.repeat(eta, S)],
    then [mu + s] as the mean of the likelihood. *)

(** [a.sum()] *)
Definition arr_sum (a : list Q) : Q := fold_right Qplus 0 a.

(** [l * n] on a Python list. *)
Definition list_times {A : Type} (l : list A) (n : nat) : list A :=
  concat (repeat l n).

(** [tt.repeat(a, S)]: every entry [S] times in a row. *)
Definition tt_repeat (a : list Q) (S : nat) : list Q :=
  flat_map (fun v => repeat v S) a.

(** [a + b] on two Theano vectors, neither of them declared broadcastable:
    entry by entry, and a mismatch of the lengths is a [ValueError]. *)
Definition tt_add (a b : list Q) : res (list Q) :=
  if Nat.eqb (length a) (length b) then Ok (zip_with Qplus a b)
  else Raise ValueError.

(** [int(T/S)]; [None] for [S = 0], a [ZeroDivisionError]. *)
Definition n_years (T S : nat) : option nat :=
  if Nat.eqb S 0 then None else Some (T / S)%nat.

(** [tt.concatenate(pieces)]: the pieces end to end; no piece at all is a
    [ValueError]. *)
Definition tt_concatenate (pieces : list (list Q)) : res (list Q) :=
  match pieces with
  | [] => Raise ValueError
  | _ :: _ => Ok (concat pieces)
  end.

Definition seasonal_s (tau eta : list Q) (S n : nat) : res (list Q) :=
  c <- tt_concatenate (list_times [[-1 * arr_sum tau]; tau] n) ;;
  tt_add c (tt_repeat eta S).

(** [mu + s] *)
Definition seasonal_mean (mu tau eta : list Q) (S n : nat) : res (list Q) :=
  s <- seasonal_s tau eta S n ;; tt_add mu s.

(* ================================================================== *)
(** * Properties *)

(* ------------------------------------------------------------------ *)
(** ** Comparisons *)

Lemma Qltb_lt (a b : Q) : Qltb a b = true <-> a < b.
Proof.
  unfold Qltb. rewrite Qlt_alt.
  destruct (a ?= b); split; congruence.
Qed.

Lemma Qltb_ge (a b : Q) : Qltb a b = false <-> b <= a.
Proof.
  split; intro H.
  - apply Qnot_lt_le. intro L. apply Qltb_lt in L. congruence.
  - destruct (Qltb a b) eqn:E; [| reflexivity].
    apply Qltb_lt in E. exfalso. revert E. apply Qle_not_lt. exact H.
Qed.

(* ------------------------------------------------------------------ *)
(** ** Sorted arrays *)

Lemma increasing_cons (a : Q) (t : list Q) :
  increasing (a :: t) = true ->
  increasing t = true /\ forall j, (j < length t)%nat -> a < nth j t 0.
Proof.
  revert a. induction t as [| b t IH]; intros a H.
  - split; [reflexivity |]. simpl. intros j Hj. lia.
  - change (Qltb a b && increasing (b :: t) = true) in H.
    apply andb_true_iff in H. destruct H as [Hab Ht].
    apply Qltb_lt in Hab. split; [exact Ht |].
    intros [| j] Hj; simpl.
    + exact Hab.
    + apply Qlt_trans with b; [exact Hab |].
      apply (IH b Ht). simpl in Hj. lia.
Qed.

Lemma increasing_ascending (a : list Q) :
  increasing a = true -> ascending a.
Proof.
  induction a as [| u t IH]; intros H i j Hij.
  - simpl in Hij. lia.
  - destruct (increasing_cons _ _ H) as [Ht Hu].
    destruct j as [| j]; [lia |].
    destruct i as [| i]; simpl.
    + apply Hu. simpl in Hij. lia.
    + apply (IH Ht). simpl in Hij. lia.
Qed.

Lemma ascending_le (a : list Q) (i j : nat) :
  ascending a -> (i <= j < length a)%nat -> nth i a 0 <= nth j a 0.
Proof.
  intros H Hij. destruct (Nat.eq_dec i j) as [-> | Hne].
  - apply Qle_refl.
  - apply Qlt_le_weak, H. lia.
Qed.

(* ------------------------------------------------------------------ *)
(** ** The binary search *)

Lemma midpoint_bounds (lo hi : nat) :
  (lo < hi)%nat -> (lo <= lo + (hi - lo) / 2 < hi)%nat.
Proof.
  intro H.
  pose proof (Nat.div_mod_eq (hi - lo) 2) as E.
  pose proof (Nat.mod_upper_bound (hi - lo) 2) as U.
  lia.
Qed.

Lemma bisect_left_step (fuel : nat) (a : list Q) (v : Q) (lo hi : nat) :
  bisect_left (S fuel) a v lo hi =
  if Nat.ltb lo hi then
    if Qltb (nth (lo + (hi - lo) / 2) a 0) v
    then bisect_left fuel a v (lo + (hi - lo) / 2 + 1) hi
    else bisect_left fuel a v lo (lo + (hi - lo) / 2)
  else lo.
Proof. reflexivity. Qed.

(** On a sorted array the search splits the array at its result: smaller
    elements before, the others from there on. *)
Lemma bisect_left_split (a : list Q) (v : Q) :
  ascending a ->
  forall fuel lo hi,
    (lo <= hi <= length a)%nat ->
    (hi - lo <= fuel)%nat ->
    (forall j, (j < lo)%nat -> nth j a 0 < v) ->
    (forall j, (hi <= j < length a)%nat -> v <= nth j a 0) ->
    let r := bisect_left fuel a v lo hi in
    (lo <= r <= hi)%nat /\
    (forall j, (j < r)%nat -> nth j a 0 < v) /\
    (forall j, (r <= j < length a)%nat -> v <= nth j a 0).
Proof.
  intros Hasc. induction fuel as [| fuel IH]; intros lo hi Hb Hf Hlo Hhi.
  - simpl. assert (lo = hi) by lia. subst hi.
    split; [lia |]. split; assumption.
  - cbv zeta. rewrite bisect_left_step. destruct (Nat.ltb lo hi) eqn:E.
    + apply Nat.ltb_lt in E.
      pose proof (midpoint_bounds lo hi E) as M.
      set (mid := (lo + (hi - lo) / 2)%nat) in *.
      destruct (Qltb (nth mid a 0) v) eqn:C.
      * apply Qltb_lt in C.
        assert (Hlo' : forall j, (j < mid + 1)%nat -> nth j a 0 < v).
        { intros j Hj. apply Qle_lt_trans with (nth mid a 0); [| exact C].
          apply ascending_le; [exact Hasc | lia]. }
        destruct (IH (mid + 1)%nat hi) as (R1 & R2 & R3);
          [lia | lia | exact Hlo' | exact Hhi |].
        cbv iota. split; [lia |]. split; assumption.
      * apply Qltb_ge in C.
        assert (Hhi' : forall j, (mid <= j < length a)%nat -> v <= nth j a 0).
        { intros j Hj. apply Qle_trans with (nth mid a 0); [exact C |].
          apply ascending_le; [exact Hasc | lia]. }
        destruct (IH lo mid) as (R1 & R2 & R3);
          [lia | lia | exact Hlo | exact Hhi' |].
        cbv iota. split; [lia |]. split; assumption.
    + apply Nat.ltb_ge in E. assert (lo = hi) by lia. subst hi.
      split; [lia |]. split; assumption.
Qed.

(** Whatever the order of the array, a value above every element of the
    window sends the search to the window's end. *)
Lemma bisect_left_above (a : list Q) (v : Q) :
  forall fuel lo hi,
    (lo <= hi)%nat ->
    (hi - lo <= fuel)%nat ->
    (forall j, (lo <= j < hi)%nat -> nth j a 0 < v) ->
    bisect_left fuel a v lo hi = hi.
Proof.
  induction fuel as [| fuel IH]; intros lo hi Hb Hf Hlt.
  - simpl. lia.
  - rewrite bisect_left_step. destruct (Nat.ltb lo hi) eqn:E.
    + apply Nat.ltb_lt in E.
      pose proof (midpoint_bounds lo hi E) as M.
      set (mid := (lo + (hi - lo) / 2)%nat) in *.
      assert (C : Qltb (nth mid a 0) v = true).
      { apply Qltb_lt, Hlt. lia. }
      rewrite C. apply IH; [lia | lia |].
      intros j Hj. apply Hlt. lia.
    + apply Nat.ltb_ge in E. lia.
Qed.

(** [searchsorted1] on a sorted array: the number of elements below [v]. *)
Lemma searchsorted1_split (a : list Q) (v : Q) :
  ascending a ->
  exists r : nat,
    searchsorted1 a v = Z.of_nat r /\
    (r <= length a)%nat /\
    (forall j, (j < r)%nat -> nth j a 0 < v) /\
    (forall j, (r <= j < length a)%nat -> v <= nth j a 0).
Proof.
  intro Hasc. unfold searchsorted1.
  destruct (@bisect_left_split a v Hasc (length a) 0%nat (length a))
    as (R1 & R2 & R3).
  - lia.
  - lia.
  - intros j Hj. lia.
  - intros j Hj. lia.
  - eexists. split; [reflexivity |]. split; [lia |]. split; assumption.
Qed.

Lemma searchsorted1_above (a : list Q) (v : Q) :
  (forall j, (j < length a)%nat -> nth j a 0 < v) ->
  searchsorted1 a v = Z.of_nat (length a).
Proof.
  intro H. unfold searchsorted1. f_equal.
  apply bisect_left_above; [lia | lia |].
  intros j Hj. apply H. lia.
Qed.

(** The result is determined by the split, so any index that splits the
    array is the one the search returns. *)
Lemma searchsorted1_unique (a : list Q) (v : Q) (k : nat) :
  ascending a ->
  (k <= length a)%nat ->
  (forall j, (j < k)%nat -> nth j a 0 < v) ->
  (forall j, (k <= j < length a)%nat -> v <= nth j a 0) ->
  searchsorted1 a v = Z.of_nat k.
Proof.
  intros Hasc Hk Hlt Hge.
  destruct (searchsorted1_split a v Hasc) as (r & E & Hr & Rlt & Rge).
  rewrite E. f_equal.
  destruct (Nat.lt_trichotomy r k) as [L | [L | L]]; [| exact L |]; exfalso.
  - assert (A : nth r a 0 < v) by (apply Hlt; lia).
    assert (B : v <= nth r a 0) by (apply Rge; lia).
    revert A. apply Qle_not_lt. exact B.
  - assert (A : nth k a 0 < v) by (apply Rlt; lia).
    assert (B : v <= nth k a 0) by (apply Hge; lia).
    revert A. apply Qle_not_lt. exact B.
Qed.

(* ------------------------------------------------------------------ *)
(** ** Indexing *)

Lemma getitem_item {A : Type} (d : A) (a : list A) (i : Z) :
  (- Z.of_nat (length a) <= i < Z.of_nat (length a))%Z ->
  getitem a i = Ok (item d a i).
Proof.
  intro H. unfold getitem, item.
  set (j := if (i <? 0)%Z then (i + Z.of_nat (length a))%Z else i).
  assert (Hj : (0 <= j < Z.of_nat (length a))%Z).
  { unfold j. destruct (Z.ltb_spec i 0); lia. }
  destruct (Z.leb_spec 0 j); [| lia].
  destruct (Z.ltb_spec j (Z.of_nat (length a))); [| lia].
  simpl. destruct (nth_error a (Z.to_nat j)) as [v |] eqn:E.
  - f_equal. symmetry. apply nth_error_nth. exact E.
  - apply nth_error_None in E. lia.
Qed.

Lemma getitem_high {A : Type} (a : list A) (i : Z) :
  (Z.of_nat (length a) <= i)%Z -> getitem a i = Raise IndexError.
Proof.
  intro H. unfold getitem.
  destruct (Z.ltb_spec i 0); [lia |].
  destruct (Z.ltb_spec i (Z.of_nat (length a))); [lia |].
  rewrite andb_false_r. reflexivity.
Qed.

Lemma getitem_low {A : Type} (a : list A) (i : Z) :
  (i < - Z.of_nat (length a))%Z -> getitem a i = Raise IndexError.
Proof.
  intro H. unfold getitem.
  destruct (Z.ltb_spec i 0); [| lia].
  destruct (Z.leb_spec 0 (i + Z.of_nat (length a))); [lia |].
  reflexivity.
Qed.

Lemma getitem_raises {A : Type} (a : list A) (i : Z) (e : exn) :
  getitem a i = Raise e -> e = IndexError.
Proof.
  unfold getitem.
  destruct (_ && _)%bool; [| congruence].
  destruct (nth_error _ _); congruence.
Qed.

(* ------------------------------------------------------------------ *)
(** ** Arrays: element-wise reading of the array operations *)

Lemma mapM_ok {A B : Type} (f : A -> res B) (g : A -> B) (l : list A) :
  (forall x, In x l -> f x = Ok (g x)) -> mapM f l = Ok (map g l).
Proof.
  induction l as [| a t IH]; intro H; simpl.
  - reflexivity.
  - rewrite (H a (or_introl eq_refl)). simpl.
    rewrite IH; [reflexivity |]. intros x Hx. apply H. right. exact Hx.
Qed.

Lemma mapM_raise {A B : Type} (f : A -> res B) (l : list A) (x : A) (e : exn) :
  In x l -> f x = Raise e ->
  (forall y e', f y = Raise e' -> e' = e) ->
  mapM f l = Raise e.
Proof.
  intros Hin Hx Hall. induction l as [| a t IH]; [destruct Hin |].
  simpl. destruct (f a) as [b | e'] eqn:E; simpl.
  - destruct Hin as [-> | Hin]; [congruence |].
    rewrite (IH Hin). reflexivity.
  - f_equal. apply (Hall a). exact E.
Qed.

Lemma mapM_length {A B : Type} (f : A -> res B) (l : list A) (r : list B) :
  mapM f l = Ok r -> length r = length l.
Proof.
  revert r. induction l as [| a t IH]; intros r H; simpl in H.
  - inversion H. reflexivity.
  - destruct (f a) as [b |]; simpl in H; [| discriminate].
    destruct (mapM f t) as [bs |]; simpl in H; [| discriminate].
    inversion H. simpl. f_equal. apply IH. reflexivity.
Qed.

Lemma mapM_raises {A B : Type} (f : A -> res B) (l : list A) (e e0 : exn) :
  (forall y e', f y = Raise e' -> e' = e0) ->
  mapM f l = Raise e -> e = e0.
Proof.
  intro Hall. induction l as [| a t IH]; simpl; [discriminate |].
  destruct (f a) as [b | e'] eqn:E; simpl.
  - destruct (mapM f t) as [bs | e'']; simpl; [discriminate |].
    intro H. inversion H. subst. apply IH. reflexivity.
  - intro H. inversion H. subst. apply (Hall a). exact E.
Qed.

Lemma broadcast_same {A B C : Type} (e : exn) (f : A -> B -> C)
      (a : list A) (b : list B) :
  length a = length b -> broadcast e f a b = Ok (zip_with f a b).
Proof.
  intro H. unfold broadcast. rewrite H, Nat.eqb_refl. reflexivity.
Qed.

Lemma zip_with_length {A B C : Type} (f : A -> B -> C)
      (a : list A) (b : list B) :
  length a = length b -> length (zip_with f a b) = length a.
Proof.
  revert b. induction a as [| u a IH]; intros [| v b] H; simpl in *;
    try reflexivity; try discriminate.
  f_equal. apply IH. lia.
Qed.

Lemma zip_with_map {T A B C : Type} (f : A -> B -> C)
      (g : T -> A) (h : T -> B) (l : list T) :
  zip_with f (map g l) (map h l) = map (fun t => f (g t) (h t)) l.
Proof.
  induction l as [| t l IH]; simpl; [reflexivity |].
  rewrite IH. reflexivity.
Qed.

Lemma broadcast_map {T A B C : Type} (e : exn) (f : A -> B -> C)
      (g : T -> A) (h : T -> B) (l : list T) :
  broadcast e f (map g l) (map h l) = Ok (map (fun t => f (g t) (h t)) l).
Proof.
  rewrite broadcast_same by (rewrite !length_map; reflexivity).
  rewrite zip_with_map. reflexivity.
Qed.

Lemma take_map {T A : Type} (d : A) (a : list A) (ix : T -> Z) (l : list T) :
  (forall t, In t l ->
     (- Z.of_nat (length a) <= ix t < Z.of_nat (length a))%Z) ->
  take a (map ix l) = Ok (map (fun t => item d a (ix t)) l).
Proof.
  intro H. unfold take.
  rewrite (@mapM_ok _ _ (getitem a) (item d a)).
  - rewrite map_map. reflexivity.
  - intros i Hi. apply in_map_iff in Hi. destruct Hi as (t & <- & Ht).
    apply getitem_item. apply H. exact Ht.
Qed.

Lemma take_high {A : Type} (a : list A) (idx : list Z) (i : Z) :
  In i idx -> (Z.of_nat (length a) <= i)%Z -> take a idx = Raise IndexError.
Proof.
  intros Hin Hi. unfold take. apply mapM_raise with i.
  - exact Hin.
  - apply getitem_high. exact Hi.
  - intros y e'. apply getitem_raises.
Qed.

Lemma take_raises {A : Type} (a : list A) (idx : list Z) (e : exn) :
  take a idx = Raise e -> e = IndexError.
Proof.
  apply mapM_raises. intros y e'. apply getitem_raises.
Qed.

Lemma take_length {A : Type} (a : list A) (idx : list Z) (r : list A) :
  take a idx = Ok r -> length r = length idx.
Proof. apply mapM_length. Qed.

Lemma item_nonneg {A : Type} (d : A) (a : list A) (i : Z) :
  (0 <= i)%Z -> item d a i = nth (Z.to_nat i) a d.
Proof.
  intro H. unfold item. destruct (Z.ltb_spec i 0); [lia | reflexivity].
Qed.

Lemma item_of_nat {A : Type} (d : A) (a : list A) (k : nat) :
  item d a (Z.of_nat k) = nth k a d.
Proof.
  rewrite item_nonneg by lia. rewrite Nat2Z.id. reflexivity.
Qed.

Lemma item_pred {A : Type} (d : A) (a : list A) (k : nat) :
  (1 <= k)%nat -> item d a (Z.of_nat k - 1) = nth (k - 1) a d.
Proof.
  intro H. rewrite item_nonneg by lia. f_equal. lia.
Qed.

(** [a[-1]] is the last element. *)
Lemma item_minus_one {A : Type} (d : A) (a : list A) :
  item d a (-1) = nth (length a - 1) a d.
Proof.
  unfold item. change (-1 <? 0)%Z with true. cbv iota.
  f_equal. lia.
Qed.

(* ------------------------------------------------------------------ *)
(** ** The computation at one query *)

Ltac step_bind :=
  match goal with
  | |- context [bind ?m _] => destruct m; simpl
  end.

Lemma interpolate_weights (x0 y0 x : list Q) :
  interpolate x0 y0 x =
  (wl <- left_weights x0 x ;;
   yl <- take y0 (idx_pred (searchsorted x0 x)) ;;
   a <- arr_mulf wl yl ;;
   yr <- take y0 (searchsorted x0 x) ;;
   b <- arr_mulf (one_minus wl) yr ;;
   arr_addf a b).
Proof.
  unfold interpolate, left_weights, np_array.
  repeat (step_bind; try reflexivity).
Qed.

Lemma interpolate_grouped_weights (x0 : list Q) (y0 : list (list Q))
      (x : list Q) (group : list Z) :
  interpolate_grouped x0 y0 x group =
  (wl <- left_weights x0 x ;;
   yl <- take2 y0 (idx_pred (searchsorted x0 x)) group ;;
   a <- arr_mulf wl yl ;;
   yr <- take2 y0 (searchsorted x0 x) group ;;
   b <- arr_mulf (one_minus wl) yr ;;
   arr_addf a b).
Proof.
  unfold interpolate_grouped, left_weights, np_array.
  repeat (step_bind; try reflexivity).
Qed.

Lemma searchsorted1_nonneg (x0 : list Q) (x : Q) :
  (0 <= searchsorted1 x0 x)%Z.
Proof. unfold searchsorted1. lia. Qed.

Lemma left_weights_map {T : Type} (fx : T -> Q) (l : list T) (x0 : list Q) :
  (forall t, In t l ->
     (searchsorted1 x0 (fx t) < Z.of_nat (length x0))%Z) ->
  left_weights x0 (map fx l) = Ok (map (fun t => weight_left x0 (fx t)) l).
Proof.
  intro H. unfold left_weights, searchsorted, idx_pred.
  rewrite !map_map.
  rewrite (@take_map _ _ 0 x0 (fun t => (searchsorted1 x0 (fx t) - 1)%Z)).
  2:{ intros t Ht. specialize (H t Ht).
      pose proof (searchsorted1_nonneg x0 (fx t)). lia. }
  cbn [bind]. unfold arr_sub at 1. rewrite broadcast_map. cbn [bind].
  rewrite (@take_map _ _ 0 x0 (fun t => searchsorted1 x0 (fx t))).
  2:{ intros t Ht. specialize (H t Ht).
      pose proof (searchsorted1_nonneg x0 (fx t)). lia. }
  cbn [bind]. unfold arr_sub. rewrite broadcast_map. cbn [bind].
  unfold arr_add. rewrite broadcast_map. cbn [bind].
  unfold arr_div. rewrite broadcast_map. reflexivity.
Qed.

(** One query above the range makes the shared statements raise, whatever
    the other queries are: [x0[idx]] has no element [n]. *)
Lemma left_weights_high (x0 xs : list Q) (x : Q) :
  In x xs ->
  searchsorted1 x0 x = Z.of_nat (length x0) ->
  left_weights x0 xs = Raise IndexError.
Proof.
  intros Hin Hx. unfold left_weights.
  destruct (take x0 (idx_pred (searchsorted x0 xs))) as [l | e] eqn:E1.
  - cbn [bind]. apply take_length in E1.
    unfold idx_pred, searchsorted in E1. rewrite !length_map in E1.
    unfold arr_sub at 1. rewrite broadcast_same by (symmetry; exact E1).
    cbn [bind].
    rewrite (@take_high _ x0 (searchsorted x0 xs) (searchsorted1 x0 x)).
    + reflexivity.
    + unfold searchsorted. apply in_map. exact Hin.
    + lia.
  - cbn [bind]. f_equal. apply (take_raises _ _ _ E1).
Qed.

Lemma take2_map {T A : Type} (d : A) (y0 : list (list A))
      (ix ig : T -> Z) (l : list T) :
  (forall t, In t l ->
     (- Z.of_nat (length y0) <= ix t < Z.of_nat (length y0))%Z /\
     (- Z.of_nat (length (item [] y0 (ix t))) <= ig t
      < Z.of_nat (length (item [] y0 (ix t))))%Z) ->
  take2 y0 (map ix l) (map ig l) =
  Ok (map (fun t => item d (item [] y0 (ix t)) (ig t)) l).
Proof.
  intro H. unfold take2. rewrite broadcast_map. cbn [bind].
  rewrite (@mapM_ok _ _ _ (fun p => item d (item [] y0 (fst p)) (snd p))).
  - rewrite map_map. reflexivity.
  - intros p Hp. apply in_map_iff in Hp. destruct Hp as (t & <- & Ht).
    destruct (H t Ht) as [Hi Hg]. cbn [fst snd]. unfold getitem2.
    rewrite (getitem_item [] y0 _ Hi). cbn [bind].
    apply getitem_item. exact Hg.
Qed.

(** Every query below the end of the knots: the univariate body returns,
    position by position, the value of [interp_at]. *)
Lemma interpolate_map {T : Type} (fx : T -> Q) (l : list T) (x0 y0 : list Q) :
  (forall t, In t l ->
     (searchsorted1 x0 (fx t) < Z.of_nat (length x0))%Z) ->
  (length x0 <= length y0)%nat ->
  interpolate x0 y0 (map fx l) = Ok (map (fun t => interp_at x0 y0 (fx t)) l).
Proof.
  intros H Hy. rewrite interpolate_weights.
  rewrite (left_weights_map fx l x0 H). cbn [bind].
  unfold searchsorted, idx_pred. rewrite !map_map.
  rewrite (@take_map _ _ 0 y0 (fun t => (searchsorted1 x0 (fx t) - 1)%Z)).
  2:{ intros t Ht. specialize (H t Ht).
      pose proof (searchsorted1_nonneg x0 (fx t)). lia. }
  cbn [bind]. unfold arr_mulf at 1. rewrite broadcast_map. cbn [bind].
  rewrite (@take_map _ _ 0 y0 (fun t => searchsorted1 x0 (fx t))).
  2:{ intros t Ht. specialize (H t Ht).
      pose proof (searchsorted1_nonneg x0 (fx t)). lia. }
  cbn [bind]. unfold one_minus. rewrite map_map.
  unfold arr_mulf. rewrite broadcast_map. cbn [bind].
  unfold arr_addf. rewrite broadcast_map. reflexivity.
Qed.

Lemma interpolate_ok (x0 y0 xs : list Q) :
  (forall x, In x xs -> (searchsorted1 x0 x < Z.of_nat (length x0))%Z) ->
  (length x0 <= length y0)%nat ->
  interpolate x0 y0 xs = Ok (map (interp_at x0 y0) xs).
Proof.
  intros H Hy. rewrite <- (map_id xs) at 1.
  apply (interpolate_map (fun x => x) xs x0 y0 H Hy).
Qed.

Lemma table_shape_row (ncols : nat) (y0 : list (list Q)) (i : Z) :
  table_shape ncols y0 = true ->
  (- Z.of_nat (length y0) <= i < Z.of_nat (length y0))%Z ->
  length (item [] y0 i) = ncols.
Proof.
  intros Hs Hi. unfold table_shape in Hs. rewrite forallb_forall in Hs.
  apply Nat.eqb_eq. apply Hs. unfold item. apply nth_In.
  destruct (Z.ltb_spec i 0); lia.
Qed.

Lemma column_index_bounds (ncols : nat) (g : Z) :
  column_index ncols g = true ->
  (- Z.of_nat ncols <= g < Z.of_nat ncols)%Z.
Proof.
  unfold column_index. intro H. apply andb_true_iff in H.
  destruct H as [H1 H2]. apply Z.leb_le in H1. apply Z.ltb_lt in H2. lia.
Qed.

(** The grouped body, the same way: [l] lists the (query, group) pairs. *)
Lemma interpolate_grouped_map {T : Type} (fx : T -> Q) (fg : T -> Z)
      (l : list T) (x0 : list Q) (y0 : list (list Q)) (ncols : nat) :
  (forall t, In t l ->
     (searchsorted1 x0 (fx t) < Z.of_nat (length x0))%Z) ->
  (length x0 <= length y0)%nat ->
  table_shape ncols y0 = true ->
  (forall t, In t l -> column_index ncols (fg t) = true) ->
  interpolate_grouped x0 y0 (map fx l) (map fg l) =
  Ok (map (fun t => interp_grouped_at x0 y0 (fx t) (fg t)) l).
Proof.
  intros H Hy Hs Hg. rewrite interpolate_grouped_weights.
  rewrite (left_weights_map fx l x0 H). cbn [bind].
  unfold searchsorted, idx_pred. rewrite !map_map.
  assert (Hrow : forall t i, In t l ->
            (- Z.of_nat (length y0) <= i < Z.of_nat (length y0))%Z ->
            (- Z.of_nat (length (item [] y0 i)) <= fg t
             < Z.of_nat (length (item [] y0 i)))%Z).
  { intros t i Ht Hi. rewrite (table_shape_row _ _ _ Hs Hi).
    apply column_index_bounds, Hg, Ht. }
  rewrite (@take2_map _ _ 0 y0
             (fun t => (searchsorted1 x0 (fx t) - 1)%Z) fg).
  2:{ intros t Ht. specialize (H t Ht).
      pose proof (searchsorted1_nonneg x0 (fx t)).
      split; [lia |]. apply Hrow; [exact Ht | lia]. }
  cbn [bind]. unfold arr_mulf at 1. rewrite broadcast_map. cbn [bind].
  rewrite (@take2_map _ _ 0 y0 (fun t => searchsorted1 x0 (fx t)) fg).
  2:{ intros t Ht. specialize (H t Ht).
      pose proof (searchsorted1_nonneg x0 (fx t)).
      split; [lia |]. apply Hrow; [exact Ht | lia]. }
  cbn [bind]. unfold one_minus. rewrite map_map.
  unfold arr_mulf. rewrite broadcast_map. cbn [bind].
  unfold arr_addf. rewrite broadcast_map. reflexivity.
Qed.

(** A query above every knot, anywhere in the batch, and the call raises. *)
Lemma interpolate_high (x0 y0 xs : list Q) (x : Q) :
  In x xs ->
  searchsorted1 x0 x = Z.of_nat (length x0) ->
  interpolate x0 y0 xs = Raise IndexError.
Proof.
  intros Hin Hx. rewrite interpolate_weights.
  rewrite (left_weights_high x0 xs x Hin Hx). reflexivity.
Qed.

Lemma interpolate_grouped_high (x0 : list Q) (y0 : list (list Q))
      (xs : list Q) (group : list Z) (x : Q) :
  In x xs ->
  searchsorted1 x0 x = Z.of_nat (length x0) ->
  interpolate_grouped x0 y0 xs group = Raise IndexError.
Proof.
  intros Hin Hx. rewrite interpolate_grouped_weights.
  rewrite (left_weights_high x0 xs x Hin Hx). reflexivity.
Qed.

(* ------------------------------------------------------------------ *)
(** ** The value at one query, as a rational *)

Lemma fdiv_weight (a b x : Q) :
  ~ a == b -> fdiv (b - x) ((x - a) + (b - x)) = Fin (weight_q a b x).
Proof.
  intro H. unfold fdiv, weight_q.
  destruct (Qeq_bool (x - a + (b - x)) 0) eqn:E; [| reflexivity].
  apply Qeq_bool_iff in E. exfalso. apply H. lra.
Qed.

Lemma weight_q_spec (a b x : Q) :
  ~ a == b -> weight_q a b x == (b - x) / (b - a).
Proof.
  intro H. unfold weight_q. field. intro E. apply H. lra.
Qed.

Lemma weight_left_finite (x0 : list Q) (x : Q) :
  ~ item 0 x0 (searchsorted1 x0 x - 1) == item 0 x0 (searchsorted1 x0 x) ->
  weight_left x0 x =
  Fin (weight_q (item 0 x0 (searchsorted1 x0 x - 1))
                (item 0 x0 (searchsorted1 x0 x)) x).
Proof.
  intro H. unfold weight_left. cbv zeta. apply fdiv_weight. exact H.
Qed.

Lemma interp_at_finite (x0 y0 : list Q) (x : Q) :
  ~ item 0 x0 (searchsorted1 x0 x - 1) == item 0 x0 (searchsorted1 x0 x) ->
  interp_at x0 y0 x = Fin (value_at x0 y0 x).
Proof.
  intro H. unfold interp_at. cbv zeta.
  rewrite (weight_left_finite x0 x H). reflexivity.
Qed.


Lemma in_closed_range_bounds (x0 : list Q) (x : Q) :
  in_closed_range x0 x = true -> first_knot x0 <= x /\ x <= last_knot x0.
Proof.
  unfold in_closed_range. intro H. apply andb_true_iff in H.
  destruct H as [H1 H2]. apply Qle_bool_iff in H1. apply Qle_bool_iff in H2.
  split; assumption.
Qed.

Lemma in_range_bounds (x0 : list Q) (x : Q) :
  in_range x0 x = true -> first_knot x0 < x /\ x <= last_knot x0.
Proof.
  unfold in_range. intro H. apply andb_true_iff in H.
  destruct H as [H1 H2]. apply Qltb_lt in H1. apply Qle_bool_iff in H2.
  split; assumption.
Qed.

(** Where the search lands for a query of the closed range. *)
Lemma searchsorted1_closed (x0 : list Q) (x : Q) :
  increasing x0 = true ->
  (1 <= length x0)%nat ->
  x <= last_knot x0 ->
  exists k : nat,
    searchsorted1 x0 x = Z.of_nat k /\
    (k < length x0)%nat /\
    x <= nth k x0 0 /\
    (forall j, (j < k)%nat -> nth j x0 0 < x).
Proof.
  intros Hinc Hn Hlast. apply increasing_ascending in Hinc.
  destruct (searchsorted1_split x0 x Hinc) as (r & E & Hr & Rlt & Rge).
  assert (Hlt : (r < length x0)%nat).
  { destruct (Nat.eq_dec r (length x0)) as [-> | Hne]; [| lia].
    exfalso. assert (A : nth (length x0 - 1) x0 0 < x) by (apply Rlt; lia).
    revert A. apply Qle_not_lt. exact Hlast. }
  exists r. split; [exact E |]. split; [exact Hlt |].
  split; [apply Rge; lia | exact Rlt].
Qed.

Lemma searchsorted1_in_range (x0 : list Q) (x : Q) :
  increasing x0 = true ->
  in_range x0 x = true ->
  exists k : nat,
    searchsorted1 x0 x = Z.of_nat k /\ (1 <= k)%nat /\ smallest_ge x0 x k.
Proof.
  intros Hinc Hr. apply in_range_bounds in Hr. destruct Hr as [Hlo Hhi].
  assert (Hn : (1 <= length x0)%nat).
  { destruct x0 as [| u t]; [| simpl; lia].
    unfold first_knot, last_knot in *. simpl in *.
    exfalso. revert Hlo. apply Qle_not_lt. exact Hhi. }
  destruct (searchsorted1_closed x0 x Hinc Hn Hhi) as (k & E & Hk & Hge & Hlt).
  exists k. split; [exact E |]. split.
  - destruct k as [| k]; [| lia].
    exfalso. revert Hlo. apply Qle_not_lt. exact Hge.
  - split; [exact Hk |]. split; assumption.
Qed.

(** The two knots the code reads are never the same position: adjacent
    knots for [idx >= 1], the last and the first one for [idx = 0]. *)
Lemma bracket_distinct (x0 : list Q) (x : Q) :
  increasing x0 = true ->
  (2 <= length x0)%nat ->
  x <= last_knot x0 ->
  (searchsorted1 x0 x < Z.of_nat (length x0))%Z /\
  ~ item 0 x0 (searchsorted1 x0 x - 1) == item 0 x0 (searchsorted1 x0 x).
Proof.
  intros Hinc Hn Hlast.
  destruct (searchsorted1_closed x0 x Hinc ltac:(lia) Hlast)
    as (k & E & Hk & Hge & Hlt).
  apply increasing_ascending in Hinc.
  rewrite E. split; [lia |].
  rewrite item_of_nat. destruct k as [| k].
  - change (Z.of_nat 0 - 1)%Z with (-1)%Z. rewrite item_minus_one.
    intro A. assert (B : nth 0 x0 0 < nth (length x0 - 1) x0 0).
    { apply Hinc. lia. }
    lra.
  - rewrite item_pred by lia.
    intro A. assert (B : nth (S k - 1) x0 0 < nth (S k) x0 0).
    { apply Hinc. lia. }
    lra.
Qed.

(* ------------------------------------------------------------------ *)
(** ** Batches *)

Lemma Forall2_map_r {A B : Type} (R : A -> B -> Prop) (f : A -> B)
      (l : list A) :
  (forall x, In x l -> R x (f x)) -> Forall2 R l (map f l).
Proof.
  induction l as [| a t IH]; intro H; simpl.
  - constructor.
  - constructor.
    + apply H. left. reflexivity.
    + apply IH. intros x Hx. apply H. right. exact Hx.
Qed.

Lemma Forall2_maps {T A B : Type} (R : A -> B -> Prop)
      (f : T -> A) (g : T -> B) (l : list T) :
  (forall x, In x l -> R (f x) (g x)) -> Forall2 R (map f l) (map g l).
Proof.
  induction l as [| a t IH]; intro H; simpl.
  - constructor.
  - constructor.
    + apply H. left. reflexivity.
    + apply IH. intros x Hx. apply H. right. exact Hx.
Qed.

(** A batch whose queries all find two distinct knots returns the finite
    values [value_at], one per query and in order. *)
Lemma interpolate_finite (x0 y0 xs : list Q) :
  (forall x, In x xs ->
     (searchsorted1 x0 x < Z.of_nat (length x0))%Z /\
     ~ item 0 x0 (searchsorted1 x0 x - 1) == item 0 x0 (searchsorted1 x0 x)) ->
  (length x0 <= length y0)%nat ->
  interpolate x0 y0 xs = Ok (map Fin (map (value_at x0 y0) xs)).
Proof.
  intros H Hy. rewrite interpolate_ok.
  - f_equal. rewrite map_map. apply map_ext_in.
    intros x Hx. apply interp_at_finite. apply (H x Hx).
  - intros x Hx. apply (H x Hx).
  - exact Hy.
Qed.

Lemma interpolate_valid (x0 y0 xs : list Q) :
  increasing x0 = true ->
  (2 <= length x0)%nat ->
  length y0 = length x0 ->
  forallb (in_closed_range x0) xs = true ->
  interpolate x0 y0 xs = Ok (map Fin (map (value_at x0 y0) xs)).
Proof.
  intros Hinc Hn Hy Hxs. apply interpolate_finite; [| lia].
  intros x Hx. rewrite forallb_forall in Hxs.
  apply bracket_distinct; [exact Hinc | exact Hn |].
  apply (in_closed_range_bounds x0 x (Hxs x Hx)).
Qed.

Lemma value_at_interior (x0 y0 : list Q) (x : Q) (k : nat) :
  searchsorted1 x0 x = Z.of_nat k ->
  (1 <= k)%nat ->
  ~ nth (k - 1) x0 0 == nth k x0 0 ->
  value_at x0 y0 x == spec_value x0 y0 x k.
Proof.
  intros E Hk Hd. unfold value_at. cbv zeta. rewrite E.
  rewrite !item_of_nat, !item_pred by exact Hk.
  unfold blend_q, spec_value, spec_weight. cbv zeta.
  rewrite (weight_q_spec _ _ x Hd). reflexivity.
Qed.

Lemma ascending_adjacent (x0 : list Q) (k : nat) :
  ascending x0 -> (1 <= k < length x0)%nat ->
  nth (k - 1) x0 0 < nth k x0 0.
Proof. intros H Hk. apply H. lia. Qed.

(** C9.  The three scenarios of the specification: knots [0, 10, 20] with
    values [0, 100, 0] give 50 at [x = 5] and 50 at [x = 15]; knots [0, 10]
    with values [5, 15] give 15 at the right knot [x = 10]. *)
Theorem interpolate_scenarios :
  (exists r : Q,
      interpolate [0; 10; 20] [0; 100; 0] [5] = Ok [Fin r] /\ r == 50) /\
  (exists r : Q,
      interpolate [0; 10; 20] [0; 100; 0] [15] = Ok [Fin r] /\ r == 50) /\
  (exists r : Q,
      interpolate [0; 10] [5; 15] [10] = Ok [Fin r] /\ r == 15).
Proof.
  repeat split; eexists; (split; [vm_compute; reflexivity |]);
    vm_compute; reflexivity.
Qed.

(* ------------------------------------------------------------------ *)
(** ** Queries at a knot and between two knots *)

Lemma blend_at_upper (a b x yl yr : Q) :
  x == b -> ~ a == b -> blend_q (weight_q a b x) yl yr == yr.
Proof.
  intros Hx Hd. unfold blend_q. rewrite (weight_q_spec a b x Hd).
  rewrite Hx. field. intro E. apply Hd. lra.
Qed.

Lemma weight_at_upper (a b x : Q) :
  x == b -> ~ a == b -> weight_q a b x == 0.
Proof.
  intros Hx Hd. rewrite (weight_q_spec a b x Hd).
  rewrite Hx. field. intro E. apply Hd. lra.
Qed.

(** A query equal to knot [k] is found at [k]: ties go to the upper knot. *)
Lemma searchsorted1_at_knot (x0 : list Q) (x : Q) (k : nat) :
  increasing x0 = true ->
  (k < length x0)%nat ->
  x == nth k x0 0 ->
  searchsorted1 x0 x = Z.of_nat k.
Proof.
  intros Hinc Hk Hx. apply increasing_ascending in Hinc.
  apply searchsorted1_unique; [exact Hinc | lia | |].
  - intros j Hj. rewrite Hx. apply Hinc. lia.
  - intros j Hj. rewrite Hx. apply ascending_le; [exact Hinc | lia].
Qed.




(** C5.  On a valid input (strictly increasing knots, at least two of them,
    as many values, every query within [x0[0], x0[n-1]]), a query equal to an
    interior knot [x0[k]], [0 < k < n-1], is found at [idx = k] (the tie goes
    to the upper knot of the interval), its left weight is 0, so the weight
    on the matching side is 1, and the value returned is [y0[k]]. *)
Theorem interpolate_at_interior_knot (x0 y0 xs : list Q) :
  increasing x0 = true ->
  (2 <= length x0)%nat ->
  length y0 = length x0 ->
  forallb (in_closed_range x0) xs = true ->
  exists rs : list Q,
    interpolate x0 y0 xs = Ok (map Fin rs) /\
    Forall2 (fun x r =>
               forall k : nat,
                 (0 < k < length x0 - 1)%nat ->
                 x == nth k x0 0 ->
                 searchsorted1 x0 x = Z.of_nat k /\
                 (exists wl : Q, weight_left x0 x = Fin wl /\ 1 - wl == 1) /\
                 r == nth k y0 0) xs rs.
Proof.
  intros Hinc Hn Hy Hxs.
  exists (map (value_at x0 y0) xs). split.
  - apply interpolate_valid; assumption.
  - apply Forall2_map_r. intros x Hx k Hk Hxk.
    rewrite forallb_forall in Hxs.
    destruct (in_closed_range_bounds x0 x (Hxs x Hx)) as [_ Hlast].
    destruct (bracket_distinct x0 x Hinc Hn Hlast) as [_ Hd].
    assert (E : searchsorted1 x0 x = Z.of_nat k).
    { apply searchsorted1_at_knot; [exact Hinc | lia | exact Hxk]. }
    assert (Hb : x == item 0 x0 (searchsorted1 x0 x)).
    { rewrite E, item_of_nat. exact Hxk. }
    split; [exact E |]. split.
    + eexists. split; [apply (weight_left_finite x0 x Hd) |].
      rewrite (weight_at_upper _ _ x Hb Hd). ring.
    + unfold value_at. cbv zeta.
      rewrite (blend_at_upper _ _ x _ _ Hb Hd).
      rewrite E, item_of_nat. reflexivity.
Qed.

Lemma interpolate_at_interior_knot_witness :
  exists rs : list Q,
    interpolate [0; 10; 20] [0; 100; 0] [10] = Ok (map Fin rs) /\
    Forall2 (fun x r =>
               forall k : nat,
                 (0 < k < length [0; 10; 20] - 1)%nat ->
                 x == nth k [0; 10; 20] 0 ->
                 searchsorted1 [0; 10; 20] x = Z.of_nat k /\
                 (exists wl : Q,
                     weight_left [0; 10; 20] x = Fin wl /\ 1 - wl == 1) /\
                 r == nth k [0; 100; 0] 0) [10] rs.
Proof.
  apply (interpolate_at_interior_knot [0; 10; 20] [0; 100; 0] [10]);
    [reflexivity | simpl; lia | reflexivity | reflexivity].
Defined.

(** C2, as the code has it.  On a valid input, a query equal to [x0[0]] is
    found at [idx = 0], and [x0[idx - 1]] is [x0[-1]], the last knot; the
    value returned is nevertheless [y0[0]]: [dr = 0] makes the weight of the
    wrapped knot 0. *)
Theorem interpolate_at_first_knot (x0 y0 xs : list Q) :
  increasing x0 = true ->
  (2 <= length x0)%nat ->
  length y0 = length x0 ->
  forallb (in_closed_range x0) xs = true ->
  exists rs : list Q,
    interpolate x0 y0 xs = Ok (map Fin rs) /\
    Forall2 (fun x r =>
               x == first_knot x0 ->
               searchsorted1 x0 x = 0%Z /\
               getitem x0 (searchsorted1 x0 x - 1) = Ok (last_knot x0) /\
               r == nth 0 y0 0) xs rs.
Proof.
  intros Hinc Hn Hy Hxs.
  exists (map (value_at x0 y0) xs). split.
  - apply interpolate_valid; assumption.
  - apply Forall2_map_r. intros x Hx Hx0.
    rewrite forallb_forall in Hxs.
    destruct (in_closed_range_bounds x0 x (Hxs x Hx)) as [_ Hlast].
    destruct (bracket_distinct x0 x Hinc Hn Hlast) as [_ Hd].
    assert (E : searchsorted1 x0 x = Z.of_nat 0).
    { apply searchsorted1_at_knot; [exact Hinc | lia | exact Hx0]. }
    assert (Hb : x == item 0 x0 (searchsorted1 x0 x)).
    { rewrite E, item_of_nat. exact Hx0. }
    split; [exact E |]. split.
    + rewrite E. change (Z.of_nat 0 - 1)%Z with (-1)%Z.
      rewrite (getitem_item 0 x0 (-1)) by lia.
      rewrite item_minus_one. reflexivity.
    + unfold value_at. cbv zeta.
      rewrite (blend_at_upper _ _ x _ _ Hb Hd).
      rewrite E, item_of_nat. reflexivity.
Qed.

Lemma interpolate_at_first_knot_witness :
  exists rs : list Q,
    interpolate [0; 10] [5; 15] [0] = Ok (map Fin rs) /\
    Forall2 (fun x r =>
               x == first_knot [0; 10] ->
               searchsorted1 [0; 10] x = 0%Z /\
               getitem [0; 10] (searchsorted1 [0; 10] x - 1)
               = Ok (last_knot [0; 10]) /\
               r == nth 0 [5; 15] 0) [0] rs.
Proof.
  apply (interpolate_at_first_knot [0; 10] [5; 15] [0]);
    [reflexivity | simpl; lia | reflexivity | reflexivity].
Defined.

(** C2 as the specification states it fails: knots [0, 10] with values
    [5, 15] and the query [x = 0 = x0[0]] give 5, which is [y0[0]]. *)
Lemma interpolate_at_first_knot_not_wrong :
  ~ (searchsorted1 [0; 10] 0 = 0%Z /\
     getitem [0; 10] (searchsorted1 [0; 10] 0 - 1) = Ok (last_knot [0; 10]) /\
     exists r : Q,
       interpolate [0; 10] [5; 15] [0] = Ok [Fin r] /\
       ~ r == nth 0 [5; 15] 0).
Proof.
  intros (_ & _ & r & E & N). vm_compute in E.
  inversion E; subst r. apply N. vm_compute. reflexivity.
Qed.

(* ------------------------------------------------------------------ *)
(** ** Reading a mapped array *)

Lemma item_map {A B : Type} (f : A -> B) (d : A) (d' : B)
      (a : list A) (i : Z) :
  (- Z.of_nat (length a) <= i < Z.of_nat (length a))%Z ->
  item d' (map f a) i = f (item d a i).
Proof.
  intro H. unfold item. rewrite length_map.
  set (j := if (i <? 0)%Z then (i + Z.of_nat (length a))%Z else i).
  assert (Hj : (0 <= j < Z.of_nat (length a))%Z).
  { unfold j. destruct (Z.ltb_spec i 0); lia. }
  rewrite (nth_indep (map f a) d' (f d)) by (rewrite length_map; lia).
  apply map_nth.
Qed.

(* ------------------------------------------------------------------ *)
(** ** The grouped form *)





(* ------------------------------------------------------------------ *)
(** ** The grouped form against the univariate form *)

Lemma column_ok (y0 : list (list Q)) (ncols : nat) (g : Z) :
  table_shape ncols y0 = true ->
  column_index ncols g = true ->
  column y0 g = Ok (map (fun row => item 0 row g) y0).
Proof.
  intros Hs Hg. unfold column. apply mapM_ok.
  intros row Hrow. apply getitem_item.
  unfold table_shape in Hs. rewrite forallb_forall in Hs.
  specialize (Hs row Hrow). apply Nat.eqb_eq in Hs. rewrite Hs.
  apply column_index_bounds. exact Hg.
Qed.

(** The search never leaves the window, sorted array or not. *)
Lemma bisect_left_bounds (a : list Q) (v : Q) :
  forall fuel lo hi,
    (lo <= hi)%nat ->
    (lo <= bisect_left fuel a v lo hi <= hi)%nat.
Proof.
  induction fuel as [| fuel IH]; intros lo hi Hb.
  - simpl. lia.
  - rewrite bisect_left_step. destruct (Nat.ltb lo hi) eqn:E.
    + apply Nat.ltb_lt in E.
      pose proof (midpoint_bounds lo hi E) as M.
      set (mid := (lo + (hi - lo) / 2)%nat) in *.
      destruct (Qltb (nth mid a 0) v).
      * specialize (IH (mid + 1)%nat hi ltac:(lia)). lia.
      * specialize (IH lo mid ltac:(lia)). lia.
    + lia.
Qed.

Lemma searchsorted1_le (x0 : list Q) (x : Q) :
  (searchsorted1 x0 x <= Z.of_nat (length x0))%Z.
Proof.
  unfold searchsorted1.
  pose proof (bisect_left_bounds x0 x (length x0) 0 (length x0) ltac:(lia)).
  lia.
Qed.

(** Either some query is searched to [n], or every one stays below. *)
Lemma batch_cases (x0 xs : list Q) :
  (exists x, In x xs /\ searchsorted1 x0 x = Z.of_nat (length x0)) \/
  (forall x, In x xs -> (searchsorted1 x0 x < Z.of_nat (length x0))%Z).
Proof.
  induction xs as [| x t IH].
  - right. intros x [].
  - destruct (Z.eq_dec (searchsorted1 x0 x) (Z.of_nat (length x0)))
      as [E | N].
    + left. exists x. split; [left; reflexivity | exact E].
    + destruct IH as [(y & Hy & E) | IH].
      * left. exists y. split; [right; exact Hy | exact E].
      * right. intros y Hy.
        destruct Hy as [E | Hy]; [subst y | apply IH; exact Hy].
        pose proof (searchsorted1_le x0 x). lia.
Qed.

Lemma map_const_repeat {A B : Type} (b : B) (l : list A) :
  map (fun _ => b) l = repeat b (length l).
Proof.
  induction l as [| a t IH]; simpl; [reflexivity |].
  rewrite IH. reflexivity.
Qed.

Lemma interp_grouped_at_column (x0 : list Q) (y0 : list (list Q))
      (x : Q) (g : Z) :
  (searchsorted1 x0 x < Z.of_nat (length x0))%Z ->
  length y0 = length x0 ->
  interp_grouped_at x0 y0 x g =
  interp_at x0 (map (fun row => item 0 row g) y0) x.
Proof.
  intros Hi Hy. pose proof (searchsorted1_nonneg x0 x) as H0.
  unfold interp_grouped_at, interp_at. cbv zeta.
  rewrite !(item_map (fun row => item 0 row g) [] 0) by lia.
  reflexivity.
Qed.

(** C10.  For a table [y0] with one row per knot and [ncols] columns and a
    group [g] that names one of its columns, the grouped form called with
    every query's group equal to [g] returns exactly what the univariate form
    returns on column [g]: the same values, and the same exception when the
    univariate form raises.  Neither the order of the knots nor the range of
    the queries matters for this. *)
Theorem interpolate_grouped_refines (x0 : list Q) (y0 : list (list Q))
        (ncols : nat) (xs : list Q) (g : Z) :
  length y0 = length x0 ->
  table_shape ncols y0 = true ->
  column_index ncols g = true ->
  exists col : list Q,
    column y0 g = Ok col /\
    interpolate_grouped x0 y0 xs (repeat g (length xs)) =
    interpolate x0 col xs.
Proof.
  intros Hy Hs Hg.
  exists (map (fun row => item 0 row g) y0).
  split; [apply (column_ok y0 ncols g Hs Hg) |].
  destruct (batch_cases x0 xs) as [(x & Hx & E) | Hall].
  - rewrite (interpolate_grouped_high x0 y0 xs _ x Hx E).
    rewrite (interpolate_high x0 _ xs x Hx E). reflexivity.
  - rewrite <- (map_const_repeat g xs).
    rewrite <- (map_id xs) at 1.
    rewrite (interpolate_grouped_map (fun x => x) (fun _ => g) xs x0 y0 ncols
               Hall ltac:(lia) Hs (fun _ _ => Hg)).
    rewrite interpolate_ok; [| exact Hall | rewrite length_map; lia].
    f_equal. apply map_ext_in. intros x Hx.
    apply interp_grouped_at_column; [apply Hall; exact Hx | exact Hy].
Qed.

Lemma interpolate_grouped_refines_witness :
  exists col : list Q,
    column [[1; 100]; [2; 200]] 1 = Ok col /\
    interpolate_grouped [0; 10] [[1; 100]; [2; 200]] [5; 0; 10]
                        (repeat 1%Z (length [5; 0; 10])) =
    interpolate [0; 10] col [5; 0; 10].
Proof.
  apply (interpolate_grouped_refines [0; 10] [[1; 100]; [2; 200]] 2
           [5; 0; 10] 1);
    reflexivity.
Defined.

(* ------------------------------------------------------------------ *)
(** ** Groups outside the table, queries outside the knots *)

Lemma getitem_In {A : Type} (a : list A) (i : Z) (v : A) :
  getitem a i = Ok v -> In v a.
Proof.
  unfold getitem. destruct (_ && _)%bool; [| discriminate].
  destruct (nth_error a _) as [u |] eqn:E; [| discriminate].
  intro H. inversion H. subst u. apply (nth_error_In a _ E).
Qed.

Lemma column_index_outside (ncols : nat) (g : Z) :
  column_index ncols g = false ->
  (g < - Z.of_nat ncols)%Z \/ (Z.of_nat ncols <= g)%Z.
Proof.
  unfold column_index. intro H. apply andb_false_iff in H.
  destruct H as [H | H].
  - left. apply Z.leb_gt in H. exact H.
  - right. apply Z.ltb_ge in H. exact H.
Qed.

(** [y0[i, g]] with [g] outside the columns raises, whatever [i] is. *)
Lemma getitem2_bad_column (y0 : list (list Q)) (ncols : nat) (i g : Z) :
  table_shape ncols y0 = true ->
  column_index ncols g = false ->
  getitem2 y0 i g = Raise IndexError.
Proof.
  intros Hs Hg. unfold getitem2.
  destruct (getitem y0 i) as [row | e] eqn:E; cbn [bind].
  - apply getitem_In in E.
    unfold table_shape in Hs. rewrite forallb_forall in Hs.
    specialize (Hs row E). apply Nat.eqb_eq in Hs.
    destruct (column_index_outside ncols g Hg).
    + apply getitem_low. lia.
    + apply getitem_high. lia.
  - f_equal. apply (getitem_raises y0 i e E).
Qed.

Lemma getitem2_raises {A : Type} (y0 : list (list A)) (i g : Z) (e : exn) :
  getitem2 y0 i g = Raise e -> e = IndexError.
Proof.
  unfold getitem2. destruct (getitem y0 i) as [row | e'] eqn:E; cbn [bind].
  - apply getitem_raises.
  - intro H. inversion H. subst e'. apply (getitem_raises y0 i e E).
Qed.

Lemma zip_with_pair_In_r {A B : Type} (a : list A) (b : list B) (v : B) :
  length a = length b -> In v b -> exists u, In (u, v) (zip_with pair a b).
Proof.
  revert b. induction a as [| u a IH]; intros [| w b] Hl Hin;
    simpl in *; try contradiction; try discriminate.
  destruct Hin as [-> | Hin].
  - exists u. left. reflexivity.
  - destruct (IH b ltac:(lia) Hin) as (u' & Hu). exists u'. right. exact Hu.
Qed.

Lemma take2_bad_column (y0 : list (list Q)) (ncols : nat)
      (idx group : list Z) (g : Z) :
  table_shape ncols y0 = true ->
  length idx = length group ->
  In g group ->
  column_index ncols g = false ->
  take2 y0 idx group = Raise IndexError.
Proof.
  intros Hs Hl Hin Hg. unfold take2.
  rewrite (broadcast_same IndexError pair idx group Hl). cbn [bind].
  destruct (zip_with_pair_In_r idx group g Hl Hin) as (i & Hi).
  apply mapM_raise with (i, g).
  - exact Hi.
  - cbn [fst snd]. apply (getitem2_bad_column y0 ncols i g Hs Hg).
  - intros p e'. apply getitem2_raises.
Qed.

Lemma left_weights_cases (x0 xs : list Q) :
  left_weights x0 xs = Raise IndexError \/
  exists wl, left_weights x0 xs = Ok wl.
Proof.
  destruct (batch_cases x0 xs) as [(x & Hx & E) | Hall].
  - left. apply (left_weights_high x0 xs x Hx E).
  - right. eexists. rewrite <- (map_id xs) at 1.
    apply (left_weights_map (fun x => x) xs x0 Hall).
Qed.

(** A group outside the columns of the table, anywhere in the group array,
    and the grouped call raises. *)
Lemma interpolate_grouped_bad_group (x0 : list Q) (y0 : list (list Q))
      (ncols : nat) (xs : list Q) (group : list Z) (g : Z) :
  table_shape ncols y0 = true ->
  length xs = length group ->
  In g group ->
  column_index ncols g = false ->
  interpolate_grouped x0 y0 xs group = Raise IndexError.
Proof.
  intros Hs Hl Hin Hg. rewrite interpolate_grouped_weights.
  destruct (left_weights_cases x0 xs) as [E | (wl & E)]; rewrite E;
    cbn [bind]; [reflexivity |].
  rewrite (take2_bad_column y0 ncols _ group g Hs); [reflexivity | | | ].
  - unfold idx_pred, searchsorted. rewrite !length_map. exact Hl.
  - exact Hin.
  - exact Hg.
Qed.

Lemma above_last_knot (x0 : list Q) (x : Q) :
  increasing x0 = true ->
  last_knot x0 < x ->
  searchsorted1 x0 x = Z.of_nat (length x0).
Proof.
  intros Hinc Hx. apply increasing_ascending in Hinc.
  apply searchsorted1_above. intros j Hj.
  apply Qle_lt_trans with (last_knot x0); [| exact Hx].
  apply ascending_le; [exact Hinc | lia].
Qed.

(** A query below the first knot is searched to [idx = 0]. *)
Lemma below_first_knot (x0 : list Q) (x : Q) :
  increasing x0 = true ->
  x < first_knot x0 ->
  searchsorted1 x0 x = 0%Z.
Proof.
  intros Hinc Hx. apply increasing_ascending in Hinc.
  apply (searchsorted1_unique x0 x 0 Hinc); [lia | intros j Hj; lia |].
  intros j Hj. apply Qle_trans with (first_knot x0).
  - apply Qlt_le_weak. exact Hx.
  - apply ascending_le; [exact Hinc | lia].
Qed.

(* ------------------------------------------------------------------ *)
(** ** Outcomes of the two bodies on arbitrary input *)

Lemma left_weights_ok (x0 xs : list Q) :
  (forall x, In x xs -> (searchsorted1 x0 x < Z.of_nat (length x0))%Z) ->
  left_weights x0 xs = Ok (map (weight_left x0) xs).
Proof.
  intro H. rewrite <- (map_id xs) at 1.
  apply (left_weights_map (fun x => x) xs x0 H).
Qed.

Lemma zip_with_min_length {A B C : Type} (f : A -> B -> C)
      (a : list A) (b : list B) :
  length (zip_with f a b) = Nat.min (length a) (length b).
Proof.
  revert b. induction a as [| u a IH]; intros [| v b]; simpl;
    try reflexivity.
  f_equal. apply IH.
Qed.

Lemma broadcast_raises {A B C : Type} (e : exn) (f : A -> B -> C)
      (a : list A) (b : list B) (e' : exn) :
  broadcast e f a b = Raise e' -> e' = e.
Proof.
  unfold broadcast. destruct (Nat.eqb (length a) (length b)); [discriminate |].
  destruct a as [| u [| u' a]]; destruct b as [| v [| v' b]];
    intro H; inversion H; reflexivity.
Qed.

(** The length of a broadcast result, from the lengths of the operands. *)
Lemma broadcast_length {A B C : Type} (e : exn) (f : A -> B -> C)
      (a : list A) (b : list B) (r : list C) :
  broadcast e f a b = Ok r ->
  length r = broadcast_len (length a) (length b).
Proof.
  unfold broadcast, broadcast_len.
  destruct (Nat.eqb (length a) (length b)) eqn:E.
  - intro H. inversion H. apply zip_with_length.
    apply Nat.eqb_eq. exact E.
  - destruct a as [| u [| u' a]]; destruct b as [| v [| v' b]];
      intro H; inversion H; simpl; rewrite ?length_map; reflexivity.
Qed.

(** An operand of the length of the query array meets an operand of the
    broadcast length: the operation goes through. *)
Lemma broadcast_against {A B C : Type} (e : exn) (f : A -> B -> C)
      (a : list A) (b : list B) (k : nat) :
  length b = broadcast_len (length a) k ->
  exists r, broadcast e f a b = Ok r /\ length r = length b.
Proof.
  unfold broadcast_len. intro H.
  destruct (Nat.eqb (length a) k) eqn:E1.
  - rewrite broadcast_same by (symmetry; exact H).
    eexists. split; [reflexivity |]. rewrite zip_with_length; congruence.
  - destruct (Nat.eqb (length a) 1) eqn:E2.
    + apply Nat.eqb_eq in E2. destruct a as [| u [| u' a]]; try discriminate.
      unfold broadcast. destruct (Nat.eqb (length [u]) (length b)) eqn:E3.
      * eexists. split; [reflexivity |]. apply Nat.eqb_eq in E3.
        rewrite zip_with_length; congruence.
      * eexists. split; [reflexivity |]. apply length_map.
    + rewrite broadcast_same by (symmetry; exact H).
      eexists. split; [reflexivity |]. rewrite zip_with_length; congruence.
Qed.

(** X1.  Whatever the arguments are, the univariate body either raises
    [IndexError] or returns exactly one value per query. *)
Theorem interpolate_outcome (x0 y0 xs : list Q) :
  interpolate x0 y0 xs = Raise IndexError \/
  exists rs : list fnum,
    interpolate x0 y0 xs = Ok rs /\ length rs = length xs.
Proof.
  remember (interpolate x0 y0 xs) as R eqn:HR.
  rewrite interpolate_weights in HR.
  destruct (batch_cases x0 xs) as [(x & Hx & E) | Hall].
  - left. rewrite (left_weights_high x0 xs x Hx E) in HR. exact HR.
  - rewrite (left_weights_ok x0 xs Hall) in HR. cbn [bind] in HR.
    destruct (take y0 (idx_pred (searchsorted x0 xs))) as [yl | e] eqn:E1.
    2:{ left. cbn [bind] in HR. rewrite HR. f_equal.
        apply (take_raises _ _ _ E1). }
    apply take_length in E1. unfold idx_pred, searchsorted in E1.
    rewrite !length_map in E1.
    cbn [bind] in HR. unfold arr_mulf at 1 in HR.
    rewrite broadcast_same in HR by (rewrite length_map; congruence).
    cbn [bind] in HR.
    destruct (take y0 (searchsorted x0 xs)) as [yr | e] eqn:E2.
    2:{ left. cbn [bind] in HR. rewrite HR. f_equal.
        apply (take_raises _ _ _ E2). }
    apply take_length in E2. unfold searchsorted in E2.
    rewrite length_map in E2.
    cbn [bind] in HR. unfold arr_mulf, one_minus in HR.
    rewrite broadcast_same in HR by (rewrite !length_map; congruence).
    cbn [bind] in HR. unfold arr_addf in HR.
    rewrite broadcast_same in HR
      by (rewrite !zip_with_min_length, !length_map; lia).
    right. eexists. split; [exact HR |].
    rewrite !zip_with_min_length, !length_map. lia.
Qed.

Lemma take2_outcome (y0 : list (list Q)) (idx group : list Z) :
  take2 y0 idx group = Raise IndexError \/
  exists v, take2 y0 idx group = Ok v /\
            length v = broadcast_len (length idx) (length group).
Proof.
  unfold take2.
  destruct (broadcast IndexError pair idx group) as [ij | e] eqn:B.
  - cbn [bind]. apply broadcast_length in B.
    destruct (mapM (fun p => getitem2 y0 (fst p) (snd p)) ij)
      as [v | e] eqn:M.
    + right. exists v. split; [reflexivity |].
      apply mapM_length in M. congruence.
    + left. f_equal. revert M. apply mapM_raises.
      intros p e'. apply getitem2_raises.
  - left. cbn [bind]. f_equal. apply (broadcast_raises _ _ _ _ _ B).
Qed.

(** X2.  The grouped body, whatever the arguments are, either raises
    [IndexError] or returns an array of the broadcast length of the queries
    and the groups: with as many groups as queries, one value per query.
    No other exception leaves either body. *)
Theorem interpolate_grouped_outcome (x0 : list Q) (y0 : list (list Q))
        (xs : list Q) (group : list Z) :
  interpolate_grouped x0 y0 xs group = Raise IndexError \/
  exists rs : list fnum,
    interpolate_grouped x0 y0 xs group = Ok rs /\
    length rs = broadcast_len (length xs) (length group) /\
    (length group = length xs -> length rs = length xs).
Proof.
  remember (interpolate_grouped x0 y0 xs group) as R eqn:HR.
  rewrite interpolate_grouped_weights in HR.
  destruct (batch_cases x0 xs) as [(x & Hx & E) | Hall].
  - left. rewrite (left_weights_high x0 xs x Hx E) in HR. exact HR.
  - rewrite (left_weights_ok x0 xs Hall) in HR. cbn [bind] in HR.
    destruct (take2_outcome y0 (idx_pred (searchsorted x0 xs)) group)
      as [E1 | (yl & E1 & L1)]; rewrite E1 in HR; cbn [bind] in HR;
      [left; exact HR |].
    unfold idx_pred, searchsorted in L1. rewrite !length_map in L1.
    destruct (broadcast_against ValueError (fun u v => fmul u (Fin v))
                (map (weight_left x0) xs) yl (length group))
      as (a & Ea & La); [rewrite length_map; exact L1 |].
    unfold arr_mulf at 1 in HR. rewrite Ea in HR. cbn [bind] in HR.
    destruct (take2_outcome y0 (searchsorted x0 xs) group)
      as [E2 | (yr & E2 & L2)]; rewrite E2 in HR; cbn [bind] in HR;
      [left; exact HR |].
    unfold searchsorted in L2. rewrite !length_map in L2.
    destruct (broadcast_against ValueError (fun u v => fmul u (Fin v))
                (one_minus (map (weight_left x0) xs)) yr (length group))
      as (b & Eb & Lb);
      [unfold one_minus; rewrite !length_map; exact L2 |].
    unfold arr_mulf in HR. rewrite Eb in HR. cbn [bind] in HR.
    unfold arr_addf in HR. rewrite broadcast_same in HR by congruence.
    right. eexists. split; [exact HR |].
    assert (L : length (zip_with fadd a b)
                = broadcast_len (length xs) (length group)).
    { rewrite zip_with_length; congruence. }
    split; [exact L |].
    intro Hg. rewrite L, Hg. unfold broadcast_len.
    rewrite Nat.eqb_refl. reflexivity.
Qed.

Lemma interpolate_grouped_outcome_witness :
  interpolate_grouped [0; 10] [[1; 100]; [2; 200]] [5; 3] [1%Z; 0%Z]
  = Raise IndexError \/
  exists rs : list fnum,
    interpolate_grouped [0; 10] [[1; 100]; [2; 200]] [5; 3] [1%Z; 0%Z]
    = Ok rs /\
    length rs = broadcast_len (length [5; 3]) (length [1%Z; 0%Z]) /\
    (length [1%Z; 0%Z] = length [5; 3] -> length rs = length [5; 3]).
Proof.
  apply (interpolate_grouped_outcome
           [0; 10] [[1; 100]; [2; 200]] [5; 3] [1%Z; 0%Z]).
Defined.

(* ------------------------------------------------------------------ *)
(** ** When the bodies return *)

Lemma map_fst_combine_eq {A B : Type} (a : list A) (b : list B) :
  length a = length b -> map fst (combine a b) = a.
Proof.
  revert b. induction a as [| u a IH]; intros [| v b] H; simpl in *;
    try reflexivity; try discriminate.
  f_equal. apply IH. lia.
Qed.

Lemma map_snd_combine_eq {A B : Type} (a : list A) (b : list B) :
  length a = length b -> map snd (combine a b) = b.
Proof.
  revert b. induction a as [| u a IH]; intros [| v b] H; simpl in *;
    try reflexivity; try discriminate.
  f_equal. apply IH. lia.
Qed.

Lemma below_last_index (x0 : list Q) (x : Q) :
  increasing x0 = true ->
  (1 <= length x0)%nat ->
  x <= last_knot x0 ->
  (searchsorted1 x0 x < Z.of_nat (length x0))%Z.
Proof.
  intros Hinc Hn Hx.
  destruct (searchsorted1_closed x0 x Hinc Hn Hx) as (k & E & Hk & _).
  rewrite E. lia.
Qed.

Lemma not_le_last_raises (x0 : list Q) (x : Q) :
  increasing x0 = true ->
  Qle_bool x (last_knot x0) = false ->
  searchsorted1 x0 x = Z.of_nat (length x0).
Proof.
  intros Hinc Hx. apply above_last_knot; [exact Hinc |].
  apply Qnot_le_lt. intro L. apply Qle_bool_iff in L. congruence.
Qed.

(** X3.  On strictly increasing knots (at least one) with as many values,
    the univariate body returns exactly when no query lies above the last
    knot; queries below the first knot do not stop it. *)
Theorem interpolate_returns_iff (x0 y0 xs : list Q) :
  increasing x0 = true ->
  (1 <= length x0)%nat ->
  length y0 = length x0 ->
  ((exists rs, interpolate x0 y0 xs = Ok rs) <->
   forallb (fun x => Qle_bool x (last_knot x0)) xs = true).
Proof.
  intros Hinc Hn Hy. split.
  - intros (rs & E). apply forallb_forall. intros x Hx.
    destruct (Qle_bool x (last_knot x0)) eqn:L; [reflexivity |].
    rewrite (interpolate_high x0 y0 xs x Hx
               (not_le_last_raises x0 x Hinc L)) in E.
    discriminate E.
  - intro H. rewrite forallb_forall in H.
    eexists. apply interpolate_ok; [| lia].
    intros x Hx. apply below_last_index; [exact Hinc | exact Hn |].
    apply Qle_bool_iff. apply (H x Hx).
Qed.

Lemma interpolate_returns_iff_witness :
  (exists rs, interpolate [0; 10] [5; 15] [-5; 3; 10] = Ok rs) <->
  forallb (fun x => Qle_bool x (last_knot [0; 10])) [-5; 3; 10] = true.
Proof.
  apply (interpolate_returns_iff [0; 10] [5; 15] [-5; 3; 10]);
    [reflexivity | simpl; lia | reflexivity].
Defined.

(** X4.  On strictly increasing knots (at least one), a table with one row
    per knot and [ncols] columns, and as many groups as queries, the grouped
    body returns exactly when no query lies above the last knot and every
    group is within [-ncols, ncols). *)
Theorem interpolate_grouped_returns_iff (x0 : list Q) (y0 : list (list Q))
        (ncols : nat) (xs : list Q) (group : list Z) :
  increasing x0 = true ->
  (1 <= length x0)%nat ->
  length y0 = length x0 ->
  table_shape ncols y0 = true ->
  length group = length xs ->
  ((exists rs, interpolate_grouped x0 y0 xs group = Ok rs) <->
   forallb (fun x => Qle_bool x (last_knot x0)) xs = true /\
   forallb (column_index ncols) group = true).
Proof.
  intros Hinc Hn Hy Hs Hl. split.
  - intros (rs & E). split; apply forallb_forall.
    + intros x Hx.
      destruct (Qle_bool x (last_knot x0)) eqn:L; [reflexivity |].
      rewrite (interpolate_grouped_high x0 y0 xs group x Hx
                 (not_le_last_raises x0 x Hinc L)) in E.
      discriminate E.
    + intros g Hg. destruct (column_index ncols g) eqn:C; [reflexivity |].
      rewrite (interpolate_grouped_bad_group x0 y0 ncols xs group g Hs
                 (eq_sym Hl) Hg C) in E.
      discriminate E.
  - intros [Hx Hg]. rewrite forallb_forall in Hx, Hg.
    assert (E : interpolate_grouped x0 y0 xs group =
                interpolate_grouped x0 y0 (map fst (combine xs group))
                                    (map snd (combine xs group))).
    { rewrite (map_fst_combine_eq xs group (eq_sym Hl)).
      rewrite (map_snd_combine_eq xs group (eq_sym Hl)). reflexivity. }
    rewrite E. eexists.
    apply (interpolate_grouped_map fst snd (combine xs group) x0 y0 ncols).
    + intros [x g] Hp. cbn [fst].
      apply below_last_index; [exact Hinc | exact Hn |].
      apply Qle_bool_iff. apply Hx. apply (in_combine_l _ _ _ _ Hp).
    + lia.
    + exact Hs.
    + intros [x g] Hp. cbn [snd]. apply Hg.
      apply (in_combine_r _ _ _ _ Hp).
Qed.

Lemma interpolate_grouped_returns_iff_witness :
  (exists rs,
      interpolate_grouped [0; 10] [[1; 100]; [2; 200]] [-5; 3]
                          [1%Z; (-2)%Z] = Ok rs) <->
  forallb (fun x => Qle_bool x (last_knot [0; 10])) [-5; 3] = true /\
  forallb (column_index 2) [1%Z; (-2)%Z] = true.
Proof.
  apply (interpolate_grouped_returns_iff
           [0; 10] [[1; 100]; [2; 200]] 2 [-5; 3] [1%Z; (-2)%Z]);
    [reflexivity | simpl; lia | reflexivity | reflexivity | reflexivity].
Defined.

(* ------------------------------------------------------------------ *)
(** ** What is raised, and what is computed on *)

(** Index arrays of different lengths, neither of length one, do not
    broadcast. *)
Lemma broadcast_mismatch {A B C : Type} (e : exn) (f : A -> B -> C)
      (a : list A) (b : list B) :
  length a <> length b -> length a <> 1%nat -> length b <> 1%nat ->
  broadcast e f a b = Raise e.
Proof.
  intros Hab Ha Hb. unfold broadcast.
  destruct (Nat.eqb_spec (length a) (length b)) as [E | _]; [contradiction |].
  destruct a as [| u [| u' a]]; destruct b as [| v [| v' b]];
    simpl in *; try reflexivity; contradiction.
Qed.

Lemma interpolate_grouped_mismatch (x0 : list Q) (y0 : list (list Q))
      (xs : list Q) (group : list Z) :
  length xs <> length group ->
  length xs <> 1%nat -> length group <> 1%nat ->
  interpolate_grouped x0 y0 xs group = Raise IndexError.
Proof.
  intros Hl Hx Hg. rewrite interpolate_grouped_weights.
  destruct (left_weights_cases x0 xs) as [E | (wl & E)]; rewrite E;
    cbn [bind]; [reflexivity |].
  unfold take2 at 1. rewrite broadcast_mismatch; [reflexivity | | | exact Hg];
    unfold idx_pred, searchsorted; rewrite !length_map; assumption.
Qed.

(** No exception but [IndexError] leaves either body. *)
Lemma interpolate_raises (x0 y0 xs : list Q) (e : exn) :
  interpolate x0 y0 xs = Raise e -> e = IndexError.
Proof.
  rewrite interpolate_weights.
  destruct (left_weights_cases x0 xs) as [E | (wl & E)]; rewrite E;
    cbn [bind]; [congruence |].
  assert (Lw : length wl = length xs).
  { unfold left_weights in E.
    destruct (take x0 (idx_pred (searchsorted x0 xs))) as [l |] eqn:E1;
      cbn [bind] in E; [| discriminate].
    apply take_length in E1. unfold idx_pred, searchsorted in E1.
    rewrite !length_map in E1.
    unfold arr_sub at 1 in E. rewrite broadcast_same in E by congruence.
    cbn [bind] in E.
    destruct (take x0 (searchsorted x0 xs)) as [r |] eqn:E2;
      cbn [bind] in E; [| discriminate].
    apply take_length in E2. unfold searchsorted in E2.
    rewrite length_map in E2.
    unfold arr_sub in E. rewrite broadcast_same in E by congruence.
    cbn [bind] in E. unfold arr_add in E.
    rewrite broadcast_same in E
      by (rewrite !zip_with_min_length; lia).
    cbn [bind] in E. unfold arr_div in E.
    rewrite broadcast_same in E
      by (rewrite !zip_with_min_length; lia).
    inversion E. rewrite !zip_with_min_length. lia. }
  destruct (take y0 (idx_pred (searchsorted x0 xs))) as [yl | e1] eqn:E1;
    cbn [bind].
  2:{ intro H. inversion H. subst e1. apply (take_raises _ _ _ E1). }
  apply take_length in E1. unfold idx_pred, searchsorted in E1.
  rewrite !length_map in E1.
  unfold arr_mulf at 1. rewrite broadcast_same by congruence. cbn [bind].
  destruct (take y0 (searchsorted x0 xs)) as [yr | e2] eqn:E2; cbn [bind].
  2:{ intro H. inversion H. subst e2. apply (take_raises _ _ _ E2). }
  apply take_length in E2. unfold searchsorted in E2.
  rewrite length_map in E2.
  unfold arr_mulf, one_minus.
  rewrite broadcast_same by (rewrite length_map; congruence). cbn [bind].
  unfold arr_addf.
  rewrite broadcast_same
    by (rewrite !zip_with_min_length, !length_map; lia).
  discriminate.
Qed.

Lemma interpolate_grouped_raises (x0 : list Q) (y0 : list (list Q))
      (xs : list Q) (group : list Z) (e : exn) :
  interpolate_grouped x0 y0 xs group = Raise e -> e = IndexError.
Proof.
  rewrite interpolate_grouped_weights.
  destruct (batch_cases x0 xs) as [(x & Hx & E) | Hall].
  - rewrite (left_weights_high x0 xs x Hx E). cbn [bind]. congruence.
  - rewrite (left_weights_ok x0 xs Hall). cbn [bind].
    destruct (take2_outcome y0 (idx_pred (searchsorted x0 xs)) group)
      as [E1 | (yl & E1 & L1)]; rewrite E1; cbn [bind]; [congruence |].
    unfold idx_pred, searchsorted in L1. rewrite !length_map in L1.
    destruct (broadcast_against ValueError (fun u v => fmul u (Fin v))
                (map (weight_left x0) xs) yl (length group))
      as (a & Ea & La); [rewrite length_map; exact L1 |].
    unfold arr_mulf at 1. rewrite Ea. cbn [bind].
    destruct (take2_outcome y0 (searchsorted x0 xs) group)
      as [E2 | (yr & E2 & L2)]; rewrite E2; cbn [bind]; [congruence |].
    unfold searchsorted in L2. rewrite !length_map in L2.
    destruct (broadcast_against ValueError (fun u v => fmul u (Fin v))
                (one_minus (map (weight_left x0) xs)) yr (length group))
      as (b & Eb & Lb);
      [unfold one_minus; rewrite !length_map; exact L2 |].
    unfold arr_mulf. rewrite Eb. cbn [bind].
    unfold arr_addf. rewrite broadcast_same by congruence.
    discriminate.
Qed.

(** C3, as the code has it.  Neither body has an error of its own: whatever
    arrays of numbers the arguments are, the only exception that leaves a
    call is the [IndexError] of an array access or of index arrays that do
    not broadcast, and it ends the whole call.  For strictly increasing knots
    (one knot is enough), at least as many knot values, and a table of
    [ncols] columns:
    - a batch with a query above the last knot raises [IndexError], in both
      forms and whatever else it contains: the search returns [n] and
      [x0[idx]] does not exist;
    - a grouped call with a group outside [-ncols, ncols) raises
      [IndexError];
    - a grouped call with a group array that does not broadcast against the
      query array (another length, neither of them 1) raises [IndexError];
    - a batch whose queries are all at most the last knot is computed, one
      value per query, also where a query lies below the first knot: it is
      searched to [idx = 0] and the read at [idx - 1] wraps to the last
      knot. *)
Theorem interpolate_unchecked (x0 y0 : list Q) (tbl : list (list Q))
        (ncols : nat) (xs : list Q) (hi : Q) (g : Z) :
  increasing x0 = true ->
  (1 <= length x0)%nat ->
  (length x0 <= length y0)%nat ->
  table_shape ncols tbl = true ->
  forallb (fun x => Qle_bool x (last_knot x0)) xs = true ->
  Qltb (last_knot x0) hi = true ->
  column_index ncols g = false ->
  (exists rs : list fnum,
      interpolate x0 y0 xs = Ok rs /\
      length rs = length xs /\
      Forall (fun x =>
                x < first_knot x0 ->
                searchsorted1 x0 x = 0%Z /\
                getitem x0 (searchsorted1 x0 x - 1) = Ok (last_knot x0)) xs) /\
  (forall pre post : list Q,
      interpolate x0 y0 (pre ++ hi :: post) = Raise IndexError) /\
  (forall (pre post : list Q) (group : list Z),
      interpolate_grouped x0 tbl (pre ++ hi :: post) group
      = Raise IndexError) /\
  (forall (qs : list Q) (pre post : list Z),
      length qs = length (pre ++ g :: post) ->
      interpolate_grouped x0 tbl qs (pre ++ g :: post) = Raise IndexError) /\
  (forall (qs : list Q) (group : list Z),
      length qs <> length group ->
      length qs <> 1%nat -> length group <> 1%nat ->
      interpolate_grouped x0 tbl qs group = Raise IndexError) /\
  (forall (qs : list Q) (e : exn),
      interpolate x0 y0 qs = Raise e -> e = IndexError) /\
  (forall (qs : list Q) (group : list Z) (e : exn),
      interpolate_grouped x0 tbl qs group = Raise e -> e = IndexError).
Proof.
  intros Hinc Hn Hy Hs Hxs Hhi Hg.
  apply Qltb_lt in Hhi. rewrite forallb_forall in Hxs.
  split; [| split; [| split; [| split; [| split; [| split]]]]].
  - exists (map (interp_at x0 y0) xs). split; [| split].
    + apply interpolate_ok; [| exact Hy].
      intros x Hx. apply below_last_index; [exact Hinc | exact Hn |].
      apply Qle_bool_iff. apply (Hxs x Hx).
    + apply length_map.
    + apply Forall_forall. intros x Hx Hlow.
      pose proof (below_first_knot x0 x Hinc Hlow) as E.
      split; [exact E |].
      rewrite E. change (0 - 1)%Z with (-1)%Z.
      rewrite (getitem_item 0 x0 (-1)) by lia.
      rewrite item_minus_one. reflexivity.
  - intros pre post. apply interpolate_high with hi.
    + apply in_or_app. right. left. reflexivity.
    + apply above_last_knot; assumption.
  - intros pre post group. apply interpolate_grouped_high with hi.
    + apply in_or_app. right. left. reflexivity.
    + apply above_last_knot; assumption.
  - intros qs pre post Hl.
    apply (interpolate_grouped_bad_group x0 tbl ncols qs _ g Hs Hl).
    + apply in_or_app. right. left. reflexivity.
    + exact Hg.
  - intros qs group. apply interpolate_grouped_mismatch.
  - intros qs e. apply interpolate_raises.
  - intros qs group e. apply interpolate_grouped_raises.
Qed.

Lemma interpolate_unchecked_witness :
  (exists rs : list fnum,
      interpolate [0; 10] [5; 15; 7] [-5; 3] = Ok rs /\
      length rs = length [-5; 3] /\
      Forall (fun x =>
                x < first_knot [0; 10] ->
                searchsorted1 [0; 10] x = 0%Z /\
                getitem [0; 10] (searchsorted1 [0; 10] x - 1)
                = Ok (last_knot [0; 10])) [-5; 3]) /\
  (forall pre post : list Q,
      interpolate [0; 10] [5; 15; 7] (pre ++ 25 :: post) = Raise IndexError) /\
  (forall (pre post : list Q) (group : list Z),
      interpolate_grouped [0; 10] [[1; 100]; [2; 200]] (pre ++ 25 :: post)
                          group
      = Raise IndexError) /\
  (forall (qs : list Q) (pre post : list Z),
      length qs = length (pre ++ 2%Z :: post) ->
      interpolate_grouped [0; 10] [[1; 100]; [2; 200]] qs
                          (pre ++ 2%Z :: post)
      = Raise IndexError) /\
  (forall (qs : list Q) (group : list Z),
      length qs <> length group ->
      length qs <> 1%nat -> length group <> 1%nat ->
      interpolate_grouped [0; 10] [[1; 100]; [2; 200]] qs group
      = Raise IndexError) /\
  (forall (qs : list Q) (e : exn),
      interpolate [0; 10] [5; 15; 7] qs = Raise e -> e = IndexError) /\
  (forall (qs : list Q) (group : list Z) (e : exn),
      interpolate_grouped [0; 10] [[1; 100]; [2; 200]] qs group = Raise e ->
      e = IndexError).
Proof.
  apply (interpolate_unchecked [0; 10] [5; 15; 7] [[1; 100]; [2; 200]] 2
           [-5; 3] 25 2);
    [reflexivity | simpl; lia | simpl; lia | reflexivity | reflexivity
    | reflexivity | reflexivity].
Defined.

(** C3 as the specification states it fails: the query [-5] is outside
    [x0[0], x0[n-1]] = [0, 10], and the call does not raise. *)
Lemma interpolate_below_range_accepted :
  ~ (in_closed_range [0; 10] (-5) = false ->
     exists e : exn, interpolate [0; 10] [5; 15] [-5] = Raise e).
Proof.
  intro H. destruct (H eq_refl) as (e & E). vm_compute in E. discriminate E.
Qed.

(** Other inputs outside the preconditions that are computed on: knots in
    decreasing order, a single knot (the division by zero leaves a non-finite
    value), more values than knots, a negative group. *)
Example decreasing_knots_accepted :
  exists r : Q, interpolate [10; 0] [5; 15] [-1] = Ok [Fin r] /\ r == 16.
Proof.
  eexists. split; [vm_compute; reflexivity |]. vm_compute. reflexivity.
Qed.

Example single_knot_accepted :
  interpolate [3] [5] [3] = Ok [NonFinite].
Proof. vm_compute. reflexivity. Qed.

Example longer_values_accepted :
  exists r : Q, interpolate [0; 10] [5; 15; 7] [5] = Ok [Fin r] /\ r == 10.
Proof.
  eexists. split; [vm_compute; reflexivity |]. vm_compute. reflexivity.
Qed.

Example negative_group_accepted :
  exists r : Q,
    interpolate_grouped [0; 10] [[1; 100]; [2; 200]] [5] [(-1)%Z]
    = Ok [Fin r] /\ r == 150.
Proof.
  eexists. split; [vm_compute; reflexivity |]. vm_compute. reflexivity.
Qed.

(* ------------------------------------------------------------------ *)
(** ** The interpolant at the knots *)

Lemma knot_in_closed_range (x0 : list Q) (k : nat) :
  increasing x0 = true ->
  (k < length x0)%nat ->
  in_closed_range x0 (nth k x0 0) = true.
Proof.
  intros Hinc Hk. apply increasing_ascending in Hinc.
  unfold in_closed_range, first_knot, last_knot.
  apply andb_true_iff.
  split; apply Qle_bool_iff; apply ascending_le; try exact Hinc; lia.
Qed.

Lemma value_at_knot (x0 y0 : list Q) (x : Q) (k : nat) :
  increasing x0 = true ->
  (2 <= length x0)%nat ->
  (k < length x0)%nat ->
  x == nth k x0 0 ->
  value_at x0 y0 x == nth k y0 0.
Proof.
  intros Hinc Hn Hk Hx.
  assert (Hlast : x <= last_knot x0).
  { rewrite Hx.
    apply (in_closed_range_bounds x0 _ (knot_in_closed_range x0 k Hinc Hk)). }
  destruct (bracket_distinct x0 x Hinc Hn Hlast) as [_ Hd].
  pose proof (searchsorted1_at_knot x0 x k Hinc Hk Hx) as E.
  assert (Hb : x == item 0 x0 (searchsorted1 x0 x)).
  { rewrite E, item_of_nat. exact Hx. }
  unfold value_at. cbv zeta. rewrite (blend_at_upper _ _ x _ _ Hb Hd).
  rewrite E, item_of_nat. reflexivity.
Qed.

Lemma Forall2_nth_intro {A B : Type} (R : A -> B -> Prop)
      (a : list A) (b : list B) (da : A) (db : B) :
  length a = length b ->
  (forall i, (i < length a)%nat -> R (nth i a da) (nth i b db)) ->
  Forall2 R a b.
Proof.
  revert b. induction a as [| u a IH]; intros [| v b] Hl H;
    simpl in Hl; try discriminate.
  - constructor.
  - constructor.
    + apply (H 0%nat). simpl. lia.
    + apply IH; [lia |]. intros i Hi. apply (H (S i)). simpl. lia.
Qed.

Lemma nth_map_lt {A B : Type} (f : A -> B) (l : list A) (i : nat)
      (d : A) (d' : B) :
  (i < length l)%nat -> nth i (map f l) d' = f (nth i l d).
Proof.
  intro H. rewrite (nth_indep (map f l) d' (f d))
    by (rewrite length_map; exact H).
  apply map_nth.
Qed.

(** X5.  Interpolating at the knots themselves gives back the knot values:
    on strictly increasing knots (at least two) with as many values,
    [interpolate(x0, y0, x0)] is [y0], first and last knot included. *)
Theorem interpolate_at_knots (x0 y0 : list Q) :
  increasing x0 = true ->
  (2 <= length x0)%nat ->
  length y0 = length x0 ->
  exists rs : list Q,
    interpolate x0 y0 x0 = Ok (map Fin rs) /\ Forall2 Qeq rs y0.
Proof.
  intros Hinc Hn Hy. exists (map (value_at x0 y0) x0). split.
  - apply interpolate_valid; try assumption.
    apply forallb_forall. intros x Hx.
    destruct (In_nth x0 x 0 Hx) as (k & Hk & <-).
    apply knot_in_closed_range; assumption.
  - apply (Forall2_nth_intro Qeq _ _ 0 0).
    + rewrite length_map. congruence.
    + rewrite length_map. intros i Hi.
      rewrite (nth_map_lt (value_at x0 y0) x0 i 0 0 Hi).
      apply value_at_knot; try assumption. reflexivity.
Qed.

Lemma interpolate_at_knots_witness :
  exists rs : list Q,
    interpolate [0; 10; 20] [0; 100; 0] [0; 10; 20] = Ok (map Fin rs) /\
    Forall2 Qeq rs [0; 100; 0].
Proof.
  apply (interpolate_at_knots [0; 10; 20] [0; 100; 0]);
    [reflexivity | simpl; lia | reflexivity].
Defined.

(* ------------------------------------------------------------------ *)
(** ** The body on binary64 numbers *)

Lemma float_bisect_left_exact (a : list float) (v : float) :
  (forall u, In u a -> F64.lt u v = Qltb (F64.toQ u) (F64.toQ v)) ->
  forall fuel lo hi,
    (hi <= length a)%nat ->
    F64.bisect_left fuel a v lo hi =
    bisect_left fuel (map F64.toQ a) (F64.toQ v) lo hi.
Proof.
  intro H. induction fuel as [| fuel IH]; intros lo hi Hhi.
  - reflexivity.
  - rewrite bisect_left_step. cbn [F64.bisect_left].
    destruct (Nat.ltb lo hi) eqn:E; [| reflexivity].
    apply Nat.ltb_lt in E.
    pose proof (midpoint_bounds lo hi E) as M.
    set (mid := (lo + (hi - lo) / 2)%nat) in *.
    change 0 with (F64.toQ zero). rewrite map_nth.
    rewrite (H (nth mid a zero)) by (apply nth_In; lia).
    destruct (Qltb _ _); apply IH; lia.
Qed.

Lemma exact_order_compare (x0 xs : list float) (x a : float) :
  F64.exact_order x0 xs = true ->
  In x xs -> In a x0 ->
  F64.lt a x = Qltb (F64.toQ a) (F64.toQ x).
Proof.
  unfold F64.exact_order. intros H Hx Ha.
  apply andb_true_iff in H. destruct H as [_ H].
  rewrite forallb_forall in H. specialize (H x Hx).
  rewrite forallb_forall in H. specialize (H a Ha).
  apply eqb_prop in H. exact H.
Qed.

(** The search on floats finds the index the search on the numbers they
    stand for finds. *)
Lemma float_searchsorted1_exact (x0 xs : list float) (x : float) :
  F64.exact_order x0 xs = true ->
  In x xs ->
  F64.searchsorted1 x0 x = searchsorted1 (map F64.toQ x0) (F64.toQ x).
Proof.
  intros H Hx. unfold F64.searchsorted1, searchsorted1.
  rewrite length_map. f_equal.
  apply float_bisect_left_exact; [| lia].
  intros a Ha. apply (exact_order_compare x0 xs x a H Hx Ha).
Qed.

Lemma float_searchsorted1_nonneg (x0 : list float) (x : float) :
  (0 <= F64.searchsorted1 x0 x)%Z.
Proof. unfold F64.searchsorted1. lia. Qed.

(** Every query below the end of the knots: the body returns, position by
    position, the value of [F64.interp_at]. *)
Lemma float_interpolate_map {T : Type} (fx : T -> float) (l : list T)
      (x0 y0 : list float) :
  (forall t, In t l ->
     (F64.searchsorted1 x0 (fx t) < Z.of_nat (length x0))%Z) ->
  (length x0 <= length y0)%nat ->
  F64.interpolate x0 y0 (map fx l) =
  Ok (map (fun t => F64.interp_at x0 y0 (fx t)) l).
Proof.
  intros H Hy. unfold F64.interpolate, F64.searchsorted, idx_pred, np_array.
  cbv zeta. rewrite !map_map.
  assert (Hlo : forall (a : list float), (length x0 <= length a)%nat ->
            forall t, In t l ->
              (- Z.of_nat (length a) <= F64.searchsorted1 x0 (fx t) - 1
               < Z.of_nat (length a))%Z).
  { intros a Ha t Ht. specialize (H t Ht).
    pose proof (float_searchsorted1_nonneg x0 (fx t)). lia. }
  assert (Hhi : forall (a : list float), (length x0 <= length a)%nat ->
            forall t, In t l ->
              (- Z.of_nat (length a) <= F64.searchsorted1 x0 (fx t)
               < Z.of_nat (length a))%Z).
  { intros a Ha t Ht. specialize (H t Ht).
    pose proof (float_searchsorted1_nonneg x0 (fx t)). lia. }
  rewrite (@take_map _ _ zero x0
             (fun t => (F64.searchsorted1 x0 (fx t) - 1)%Z) l
             (Hlo x0 (Nat.le_refl _))).
  cbn [bind]. rewrite broadcast_map. cbn [bind].
  rewrite (@take_map _ _ zero x0 (fun t => F64.searchsorted1 x0 (fx t)) l
             (Hhi x0 (Nat.le_refl _))).
  cbn [bind]. rewrite broadcast_map. cbn [bind].
  rewrite broadcast_map. cbn [bind].
  rewrite broadcast_map. cbn [bind].
  rewrite (@take_map _ _ zero y0
             (fun t => (F64.searchsorted1 x0 (fx t) - 1)%Z) l (Hlo y0 Hy)).
  cbn [bind]. rewrite broadcast_map. cbn [bind].
  rewrite (@take_map _ _ zero y0 (fun t => F64.searchsorted1 x0 (fx t)) l
             (Hhi y0 Hy)).
  cbn [bind]. rewrite map_map. rewrite broadcast_map. cbn [bind].
  rewrite broadcast_map. reflexivity.
Qed.

Lemma float_interpolate_ok (x0 y0 xs : list float) :
  (forall x, In x xs ->
     (F64.searchsorted1 x0 x < Z.of_nat (length x0))%Z) ->
  (length x0 <= length y0)%nat ->
  F64.interpolate x0 y0 xs = Ok (map (F64.interp_at x0 y0) xs).
Proof.
  intros H Hy. rewrite <- (map_id xs) at 1.
  apply (float_interpolate_map (fun x => x) xs x0 y0 H Hy).
Qed.

Lemma item_toQ (a : list float) (i : Z) :
  item 0 (map F64.toQ a) i = F64.toQ (item zero a i).
Proof.
  unfold item. rewrite length_map.
  change 0 with (F64.toQ zero). apply map_nth.
Qed.


Lemma toQ_one : F64.toQ 1%float == 1.
Proof. vm_compute. reflexivity. Qed.

Lemma exact2_spec (opf : float -> float -> float) (opq : Q -> Q -> Q)
      (a b : float) :
  F64.exact2 opf opq a b = true ->
  F64.finite (opf a b) = true /\
  F64.toQ (opf a b) == opq (F64.toQ a) (F64.toQ b).
Proof.
  unfold F64.exact2. intro H. apply andb_true_iff in H.
  destruct H as [H1 H2]. apply Qeq_bool_iff in H2. split; assumption.
Qed.

(** Where nothing is rounded, the float the body computes stands for the
    value the same expressions have over the rationals. *)
Lemma float_value_exact (x0 y0 : list float) (x : float) :
  F64.searchsorted1 x0 x = searchsorted1 (map F64.toQ x0) (F64.toQ x) ->
  F64.unrounded x0 y0 x = true ->
  F64.finite (F64.interp_at x0 y0 x) = true /\
  F64.toQ (F64.interp_at x0 y0 x) ==
  value_at (map F64.toQ x0) (map F64.toQ y0) (F64.toQ x).
Proof.
  intros E H. unfold F64.unrounded in H. cbv zeta in H.
  unfold F64.interp_at, value_at. cbv zeta. rewrite <- E.
  rewrite !item_toQ.
  apply andb_true_iff in H. destruct H as [H A8].
  apply andb_true_iff in H. destruct H as [H A7].
  apply andb_true_iff in H. destruct H as [H A6].
  apply andb_true_iff in H. destruct H as [H A5].
  apply andb_true_iff in H. destruct H as [H A4].
  apply andb_true_iff in H. destruct H as [H A3].
  apply andb_true_iff in H. destruct H as [A1 A2].
  apply exact2_spec in A1, A2, A3, A4, A5, A6, A7, A8.
  destruct A1 as [_ A1]. destruct A2 as [_ A2]. destruct A3 as [_ A3].
  destruct A4 as [_ A4]. destruct A5 as [_ A5]. destruct A6 as [_ A6].
  destruct A7 as [_ A7]. destruct A8 as [F8 A8].
  split; [exact F8 |].
  rewrite A8, A5, A7, A6, toQ_one, A4, A3, A1, A2.
  unfold blend_q, weight_q. reflexivity.
Qed.

(** Where the search on floats lands for a query within the knots. *)
Lemma float_searchsorted1_closed (x0 xs : list float) (x : float) :
  F64.exact_order x0 xs = true ->
  increasing (map F64.toQ x0) = true ->
  (2 <= length x0)%nat ->
  In x xs ->
  in_closed_range (map F64.toQ x0) (F64.toQ x) = true ->
  F64.searchsorted1 x0 x = searchsorted1 (map F64.toQ x0) (F64.toQ x) /\
  (F64.searchsorted1 x0 x < Z.of_nat (length x0))%Z.
Proof.
  intros Hord Hinc Hn Hx Hr.
  pose proof (float_searchsorted1_exact x0 xs x Hord Hx) as E.
  split; [exact E |]. rewrite E.
  destruct (in_closed_range_bounds _ _ Hr) as [_ Hlast].
  rewrite <- (length_map F64.toQ x0).
  apply (bracket_distinct (map F64.toQ x0) (F64.toQ x) Hinc); [| exact Hlast].
  rewrite length_map. exact Hn.
Qed.

(** C1, as the code has it.  For knots [x0] that are numbers in strictly
    increasing order, knot values [y0] of the same length and queries [xs]
    with [x0[0] < x <= x0[n-1]], [interpolate] returns one float per query,
    and the float at query [x] is [wl * y0[idx-1] + (1 - wl) * y0[idx]],
    where [idx] is the smallest index with [x0[idx] >= x] and [wl] is the
    float the code computes: [dr / (dl + dr)] with [dl = x - x0[idx-1]] and
    [dr = x0[idx] - x], every operation a binary64 operation.  At a query
    where none of these operations rounds, that float is the number the
    closed form [wl = (x0[idx] - x) / (x0[idx] - x0[idx-1])] gives. *)
Theorem interpolate_formula (x0 y0 xs : list float) :
  F64.exact_order x0 xs = true ->
  increasing (map F64.toQ x0) = true ->
  length y0 = length x0 ->
  forallb (fun x => in_range (map F64.toQ x0) (F64.toQ x)) xs = true ->
  exists rs : list float,
    F64.interpolate x0 y0 xs = Ok rs /\
    Forall2 (fun x r =>
               exists idx : nat,
                 (1 <= idx)%nat /\
                 smallest_ge (map F64.toQ x0) (F64.toQ x) idx /\
                 (let dl := (x - nth (idx - 1) x0 zero)%float in
                  let dr := (nth idx x0 zero - x)%float in
                  let wl := (dr / (dl + dr))%float in
                  r = (wl * nth (idx - 1) y0 zero
                       + (1 - wl) * nth idx y0 zero)%float) /\
                 (F64.unrounded x0 y0 x = true ->
                  F64.finite r = true /\
                  F64.toQ r ==
                  spec_value (map F64.toQ x0) (map F64.toQ y0) (F64.toQ x)
                             idx)) xs rs.
Proof.
  intros Hord Hinc Hy Hxs. rewrite forallb_forall in Hxs.
  assert (Hk : forall x, In x xs ->
            exists k : nat,
              searchsorted1 (map F64.toQ x0) (F64.toQ x) = Z.of_nat k /\
              F64.searchsorted1 x0 x = Z.of_nat k /\ (1 <= k)%nat /\
              smallest_ge (map F64.toQ x0) (F64.toQ x) k).
  { intros x Hx.
    destruct (searchsorted1_in_range _ _ Hinc (Hxs x Hx)) as (k & E & H).
    exists k. split; [exact E |]. split; [| exact H].
    rewrite (float_searchsorted1_exact x0 xs x Hord Hx). exact E. }
  exists (map (F64.interp_at x0 y0) xs). split.
  - apply float_interpolate_ok; [| lia].
    intros x Hx. destruct (Hk x Hx) as (k & _ & E & _ & Hlt & _).
    rewrite length_map in Hlt. rewrite E. lia.
  - apply Forall2_map_r. intros x Hx.
    destruct (Hk x Hx) as (k & Eq & E & Hk1 & Hs).
    exists k. split; [exact Hk1 |]. split; [exact Hs |]. split.
    + unfold F64.interp_at. cbv zeta. rewrite E.
      rewrite !item_of_nat, !item_pred by exact Hk1. reflexivity.
    + intro U.
      destruct (float_value_exact x0 y0 x
                  (float_searchsorted1_exact x0 xs x Hord Hx) U) as [F V].
      split; [exact F |]. rewrite V.
      apply value_at_interior; [exact Eq | exact Hk1 |].
      destruct Hs as (Hlt & _).
      pose proof (ascending_adjacent _ k (increasing_ascending _ Hinc)
                    ltac:(lia)) as A.
      intro B. lra.
Qed.

Lemma interpolate_formula_witness :
  exists rs : list float,
    F64.interpolate [0; 10; 20]%float [0; 100; 0]%float [5; 15; 20]%float
    = Ok rs /\
    Forall2 (fun x r =>
               exists idx : nat,
                 (1 <= idx)%nat /\
                 smallest_ge (map F64.toQ [0; 10; 20]%float) (F64.toQ x) idx /\
                 (let dl := (x - nth (idx - 1) [0; 10; 20]%float zero)%float in
                  let dr := (nth idx [0; 10; 20]%float zero - x)%float in
                  let wl := (dr / (dl + dr))%float in
                  r = (wl * nth (idx - 1) [0; 100; 0]%float zero
                       + (1 - wl) * nth idx [0; 100; 0]%float zero)%float) /\
                 (F64.unrounded [0; 10; 20]%float [0; 100; 0]%float x = true ->
                  F64.finite r = true /\
                  F64.toQ r ==
                  spec_value (map F64.toQ [0; 10; 20]%float)
                             (map F64.toQ [0; 100; 0]%float) (F64.toQ x) idx))
            [5; 15; 20]%float rs.
Proof.
  apply (interpolate_formula [0; 10; 20]%float [0; 100; 0]%float
           [5; 15; 20]%float);
    vm_compute; reflexivity.
Defined.

(** C1 as the specification states it fails on rounding.  Knots [0, 0.9],
    values [1, 3], query [0.2] (so [idx = 1]): the code returns
    1.4444444444444444, which is neither the float the closed form
    [wl = (x0[idx] - x) / (x0[idx] - x0[idx-1])] gives when it is evaluated
    in binary64 (1.4444444444444446) nor its value over the reals. *)
Lemma interpolate_closed_form_rounded :
  ~ (exists r : float,
        F64.interpolate [0; 0.9]%float [1; 3]%float [0.2]%float = Ok [r] /\
        (r = (let wl := (0.9 - 0.2) / (0.9 - 0) in
              wl * 1 + (1 - wl) * 3)%float \/
         F64.toQ r ==
         spec_value (map F64.toQ [0; 0.9]%float) (map F64.toQ [1; 3]%float)
                    (F64.toQ 0.2) 1)).
Proof.
  intros (r & E & H). vm_compute in E. inversion E; subst r.
  destruct H as [H | H].
  - apply (f_equal Prim2SF) in H. vm_compute in H. discriminate H.
  - vm_compute in H. discriminate H.
Qed.









(** X22.  The two readings of the body agree where binary64 rounds nothing.
    On a valid input, if none of the operations at any query of the batch
    rounds, every float the body returns is a number, and it is the value the
    same expressions have over the rationals on the numbers the arguments
    stand for. *)
Theorem interpolate_unrounded_exact (x0 y0 xs : list float) :
  F64.exact_order x0 xs = true ->
  increasing (map F64.toQ x0) = true ->
  (2 <= length x0)%nat ->
  length y0 = length x0 ->
  forallb (fun x => in_closed_range (map F64.toQ x0) (F64.toQ x)) xs = true ->
  forallb (F64.unrounded x0 y0) xs = true ->
  exists (rs : list float) (qs : list Q),
    F64.interpolate x0 y0 xs = Ok rs /\
    interpolate (map F64.toQ x0) (map F64.toQ y0) (map F64.toQ xs)
    = Ok (map Fin qs) /\
    Forall2 (fun r q => F64.finite r = true /\ F64.toQ r == q) rs qs.
Proof.
  intros Hord Hinc Hn Hy Hxs Hu. rewrite forallb_forall in Hxs, Hu.
  exists (map (F64.interp_at x0 y0) xs).
  exists (map (value_at (map F64.toQ x0) (map F64.toQ y0))
              (map F64.toQ xs)).
  split; [| split].
  - apply float_interpolate_ok; [| lia].
    intros x Hx.
    apply (float_searchsorted1_closed x0 xs x Hord Hinc Hn Hx (Hxs x Hx)).
  - apply interpolate_valid.
    + exact Hinc.
    + rewrite length_map. exact Hn.
    + rewrite !length_map. exact Hy.
    + apply forallb_forall. intros q Hq.
      apply in_map_iff in Hq. destruct Hq as (x & <- & Hx).
      apply (Hxs x Hx).
  - rewrite map_map. apply Forall2_maps. intros x Hx.
    destruct (float_searchsorted1_closed x0 xs x Hord Hinc Hn Hx (Hxs x Hx))
      as [E _].
    apply (float_value_exact x0 y0 x E (Hu x Hx)).
Qed.

Lemma interpolate_unrounded_exact_witness :
  exists (rs : list float) (qs : list Q),
    F64.interpolate [0; 10; 20]%float [0; 100; 0]%float [5; 15; 20]%float
    = Ok rs /\
    interpolate (map F64.toQ [0; 10; 20]%float)
                (map F64.toQ [0; 100; 0]%float)
                (map F64.toQ [5; 15; 20]%float)
    = Ok (map Fin qs) /\
    Forall2 (fun r q => F64.finite r = true /\ F64.toQ r == q) rs qs.
Proof.
  apply (interpolate_unrounded_exact [0; 10; 20]%float [0; 100; 0]%float
           [5; 15; 20]%float);
    [vm_compute; reflexivity | vm_compute; reflexivity | simpl; lia
    | reflexivity | vm_compute; reflexivity | vm_compute; reflexivity].
Defined.

(* ------------------------------------------------------------------ *)
(** ** The knots of the notebook *)

Lemma min_from_le (u : Q) (t : list Q) :
  min_from u t <= u /\ forall v, In v t -> min_from u t <= v.
Proof.
  revert u. induction t as [| w t IH]; intro u; simpl.
  - split; [apply Qle_refl | intros v []].
  - destruct (Qltb w u) eqn:C.
    + apply Qltb_lt in C. destruct (IH w) as [A B]. split.
      * apply Qle_trans with w; [exact A | apply Qlt_le_weak; exact C].
      * intros v [<- | Hv]; [exact A | apply B; exact Hv].
    + apply Qltb_ge in C. destruct (IH u) as [A B]. split; [exact A |].
      intros v [<- | Hv]; [| apply B; exact Hv].
      apply Qle_trans with u; assumption.
Qed.

Lemma max_from_ge (u : Q) (t : list Q) :
  u <= max_from u t /\ forall v, In v t -> v <= max_from u t.
Proof.
  revert u. induction t as [| w t IH]; intro u; simpl.
  - split; [apply Qle_refl | intros v []].
  - destruct (Qltb u w) eqn:C.
    + apply Qltb_lt in C. destruct (IH w) as [A B]. split.
      * apply Qle_trans with w; [apply Qlt_le_weak; exact C | exact A].
      * intros v [<- | Hv]; [exact A | apply B; exact Hv].
    + apply Qltb_ge in C. destruct (IH u) as [A B]. split; [exact A |].
      intros v [<- | Hv]; [| apply B; exact Hv].
      apply Qle_trans with u; assumption.
Qed.

Lemma series_bounds (age : list Q) (lo hi : Q) :
  series_min age = Some lo ->
  series_max age = Some hi ->
  forall x, In x age -> lo <= x /\ x <= hi.
Proof.
  destruct age as [| u t]; [discriminate |]. simpl.
  intros Hlo Hhi x Hx. inversion Hlo. inversion Hhi. subst lo hi.
  destruct (min_from_le u t) as [A B].
  destruct (max_from_ge u t) as [C D].
  destruct Hx as [<- | Hx]; split; auto.
Qed.

Lemma linspace_length (start stop : Q) (num : nat) :
  length (linspace start stop num) = num.
Proof.
  unfold linspace. cbv zeta.
  set (y := map (fun v => v + start) _).
  assert (Hy : length y = num).
  { unfold y. destruct (Nat.ltb 0 (num - 1));
      [destruct (Qeq_bool _ 0) |];
      unfold arange; rewrite !length_map, length_seq; reflexivity. }
  destruct (Nat.ltb 1 num) eqn:E; [| exact Hy].
  apply Nat.ltb_lt in E. unfold set_last.
  rewrite length_app, removelast_firstn_len, length_firstn. simpl. lia.
Qed.

(** A value not above any element of the window leaves the search at the
    window's start. *)
Lemma bisect_left_below (a : list Q) (v : Q) :
  forall fuel lo hi,
    (forall j, (lo <= j < hi)%nat -> v <= nth j a 0) ->
    bisect_left fuel a v lo hi = lo.
Proof.
  induction fuel as [| fuel IH]; intros lo hi Hge; [reflexivity |].
  rewrite bisect_left_step. destruct (Nat.ltb lo hi) eqn:E; [| reflexivity].
  apply Nat.ltb_lt in E.
  pose proof (midpoint_bounds lo hi E) as M.
  set (mid := (lo + (hi - lo) / 2)%nat) in *.
  assert (C : Qltb (nth mid a 0) v = false).
  { apply Qltb_ge. apply Hge. lia. }
  rewrite C. apply IH. intros j Hj. apply Hge. lia.
Qed.

Lemma Forall_removelast {A : Type} (P : A -> Prop) (l : list A) :
  Forall P l -> Forall P (removelast l).
Proof.
  induction l as [| u t IH]; intro H; [constructor |].
  inversion H as [| ? ? Hu Ht]; subst.
  destruct t as [| v t]; [constructor |].
  change (Forall P (u :: removelast (v :: t))).
  constructor; [exact Hu | apply IH; exact Ht].
Qed.

(** With [start] and [stop] the same number, every entry is that number. *)
Lemma linspace_flat (start stop : Q) (num : nat) :
  start == stop -> Forall (fun v => v == start) (linspace start stop num).
Proof.
  intro H. unfold linspace. cbv zeta.
  set (div := inject_Z (Z.of_nat (num - 1))).
  assert (Hy : Forall (fun v => v == start)
                 (map (fun v => v + start)
                    (if Nat.ltb 0 (num - 1)
                     then if Qeq_bool ((stop - start) / div) 0
                          then map (fun v => v * (stop - start))
                                   (map (fun v => v / div) (arange num))
                          else map (fun v => v * ((stop - start) / div))
                                   (arange num)
                     else map (fun v => v * (stop - start)) (arange num)))).
  { apply Forall_forall. intros v Hv. apply in_map_iff in Hv.
    destruct Hv as (w & <- & Hw).
    assert (W : w == 0); [| rewrite W; ring].
    destruct (Nat.ltb 0 (num - 1));
      [destruct (Qeq_bool ((stop - start) / div) 0) |];
      apply in_map_iff in Hw; destruct Hw as (u & <- & _);
      rewrite <- H; unfold Qdiv; ring. }
  destruct (Nat.ltb 1 num); [| exact Hy].
  unfold set_last. apply Forall_app. split.
  - apply Forall_removelast. exact Hy.
  - constructor; [symmetry; exact H | constructor].
Qed.

(** X12.  A data set of one age only.  When every observation has the same
    age, the 9 knots coincide, [d = dl + dr] is 0 at every observation, and
    the call returns a non-finite value for each of them; nothing is
    raised. *)
Theorem ghme_p_single_age (y age : list Q) (lo hi : Q) :
  series_min age = Some lo ->
  series_max age = Some hi ->
  lo == hi ->
  length y = 9%nat ->
  ghme_p y age = Some (Ok (map (fun _ => NonFinite) age)).
Proof.
  intros Hlo Hhi Heq Hy. unfold ghme_p, ghme_knots. rewrite Hlo, Hhi.
  f_equal. set (knots := linspace lo hi nknots).
  assert (Hlen : length knots = 9%nat) by apply linspace_length.
  assert (Hk : forall j, (j < 9)%nat -> nth j knots 0 == lo).
  { intros j Hj. pose proof (linspace_flat lo hi nknots Heq) as F.
    rewrite Forall_forall in F. apply F. apply nth_In.
    fold knots. lia. }
  assert (Hx : forall x, In x age -> x == lo).
  { intros x Hin.
    destruct (series_bounds age lo hi Hlo Hhi x Hin) as [A B].
    apply Qle_antisym; [rewrite Heq; exact B | exact A]. }
  assert (Hidx : forall x, In x age -> searchsorted1 knots x = 0%Z).
  { intros x Hin. unfold searchsorted1.
    rewrite bisect_left_below; [reflexivity |].
    intros j Hj. rewrite (Hx x Hin), (Hk j) by lia. apply Qle_refl. }
  rewrite interpolate_ok.
  - f_equal. apply map_ext_in. intros x Hin.
    unfold interp_at, weight_left. cbv zeta. rewrite (Hidx x Hin).
    change (0 - 1)%Z with (-1)%Z. rewrite item_minus_one.
    rewrite (item_nonneg 0 knots 0%Z) by lia.
    change (Z.to_nat 0) with 0%nat.
    rewrite Hlen. simpl Nat.sub.
    assert (D : Qeq_bool (x - nth 8 knots 0 + (nth 0 knots 0 - x)) 0 = true).
    { apply Qeq_bool_iff. rewrite (Hk 8%nat), (Hk 0%nat) by lia. ring. }
    unfold fdiv. rewrite D. reflexivity.
  - intros x Hin. rewrite (Hidx x Hin). lia.
  - lia.
Qed.

Lemma ghme_p_single_age_witness :
  ghme_p [1; 2; 3; 4; 5; 6; 7; 8; 9] [40; 40; 40]
  = Some (Ok (map (fun _ => NonFinite) [40; 40; 40])).
Proof.
  apply (ghme_p_single_age [1; 2; 3; 4; 5; 6; 7; 8; 9] [40; 40; 40] 40 40);
    reflexivity.
Defined.

(* ------------------------------------------------------------------ *)
(** ** The simulated AR(1) series *)

Lemma setitem_ok {A : Type} (a : list A) (i : nat) (v : A) :
  (i < length a)%nat ->
  setitem a (Z.of_nat i) v = Ok (firstn i a ++ v :: skipn (S i) a).
Proof.
  intro H. unfold setitem.
  destruct (Z.ltb_spec (Z.of_nat i) 0); [lia |].
  destruct (Z.leb_spec 0 (Z.of_nat i)); [| lia].
  destruct (Z.ltb_spec (Z.of_nat i) (Z.of_nat (length a))); [| lia].
  simpl. rewrite Nat2Z.id. reflexivity.
Qed.

Lemma updated_length {A : Type} (a : list A) (i : nat) (v : A) :
  (i < length a)%nat ->
  length (firstn i a ++ v :: skipn (S i) a) = length a.
Proof.
  intro H. rewrite length_app, length_firstn. cbn [length].
  rewrite length_skipn. lia.
Qed.

Lemma updated_nth {A : Type} (a : list A) (i j : nat) (v d : A) :
  (i < length a)%nat ->
  nth j (firstn i a ++ v :: skipn (S i) a) d =
  if Nat.eqb j i then v else nth j a d.
Proof.
  intro H. destruct (Nat.eqb_spec j i) as [-> | Hne].
  - rewrite app_nth2 by (rewrite length_firstn; lia).
    rewrite length_firstn.
    replace (i - Nat.min i (length a))%nat with 0%nat by lia.
    reflexivity.
  - destruct (Nat.lt_ge_cases j i) as [L | L].
    + rewrite app_nth1 by (rewrite length_firstn; lia).
      rewrite nth_firstn. apply Nat.ltb_lt in L. rewrite L. reflexivity.
    + rewrite app_nth2 by (rewrite length_firstn; lia).
      rewrite length_firstn.
      replace (j - Nat.min i (length a))%nat with (S (j - S i)) by lia.
      cbn [nth]. rewrite nth_skipn. f_equal. lia.
Qed.

(** The loop from index [m + 1] on, entered with the entries up to [m]
    written and the others still 0. *)
Lemma ar1_loop_run (draw : nat -> Q) (T : nat) :
  forall (len m : nat) (y : list Q),
    (m + len + 1 = T)%nat \/ (len = 0%nat /\ T = 0%nat /\ m = 0%nat) ->
    length y = T ->
    (forall i, (1 <= i <= m)%nat ->
               nth i y 0 = (95 # 100) * nth (i - 1) y 0 + draw (i - 1)%nat) ->
    (forall i, (m < i)%nat -> nth i y 0 = 0) ->
    ((1 <= T)%nat -> nth 0 y 0 = 0) ->
    exists y' : list Q,
      ar1_loop draw (seq (S m) len) y m = Ok (y', (m + len)%nat) /\
      length y' = T /\
      ((1 <= T)%nat -> nth 0 y' 0 = 0) /\
      (forall i, (1 <= i < T)%nat ->
                 nth i y' 0
                 = (95 # 100) * nth (i - 1) y' 0 + draw (i - 1)%nat).
Proof.
  induction len as [| len IH]; intros m y HT Hy Hrec Hzero H0.
  - exists y. simpl. rewrite Nat.add_0_r.
    split; [reflexivity |]. split; [exact Hy |]. split; [exact H0 |].
    intros i Hi. apply Hrec. lia.
  - destruct HT as [HT | (C & _)]; [| discriminate].
    cbn [seq ar1_loop].
    rewrite (getitem_item 0 y (Z.of_nat (S m) - 1)) by lia.
    cbn [bind]. rewrite item_pred by lia.
    rewrite setitem_ok by lia. cbn [bind].
    replace (S m - 1)%nat with m by lia.
    set (v := (95 # 100) * nth m y 0 + draw m).
    set (y1 := firstn (S m) y ++ v :: skipn (S (S m)) y).
    assert (N : forall j, nth j y1 0 = if Nat.eqb j (S m) then v
                                       else nth j y 0).
    { intro j. apply updated_nth. lia. }
    destruct (IH (S m) y1) as (y' & E & L & Z0 & R).
    + left. lia.
    + unfold y1. rewrite updated_length; lia.
    + intros i Hi. rewrite !N.
      destruct (Nat.eqb_spec i (S m)) as [-> | Hne].
      * replace (S m - 1)%nat with m by lia.
        destruct (Nat.eqb_spec m (S m)); [lia | reflexivity].
      * destruct (Nat.eqb_spec (i - 1) (S m)); [lia |].
        apply Hrec. lia.
    + intros i Hi. rewrite N.
      destruct (Nat.eqb_spec i (S m)); [lia |]. apply Hzero. lia.
    + intro H1. rewrite N. simpl Nat.eqb. apply H0. exact H1.
    + exists y'. replace (m + S len)%nat with (S m + len)%nat by lia.
      split; [exact E |]. split; [exact L |]. split; assumption.
Qed.

Lemma ar1_simulate_facts (draw : nat -> Q) (T : nat) :
  exists y : list Q,
    ar1_simulate draw T = Ok (y, (T - 1)%nat) /\
    length y = T /\
    ((1 <= T)%nat -> nth 0 y 0 = 0) /\
    (forall i, (1 <= i < T)%nat ->
               nth i y 0 = (95 # 100) * nth (i - 1) y 0 + draw (i - 1)%nat).
Proof.
  unfold ar1_simulate, range_from_1.
  destruct (ar1_loop_run draw T (T - 1) 0 (repeat 0 T)) as (y & E & L & Z & R).
  - destruct T as [| T]; [right; repeat split; reflexivity | left; lia].
  - apply repeat_length.
  - intros i Hi. lia.
  - intros i Hi. apply nth_repeat.
  - intros _. apply nth_repeat.
  - exists y. split; [exact E |]. split; [exact L |]. split; assumption.
Qed.



Lemma ar1_step_bound (p d B : Q) :
  Qabs p <= 20 * B -> Qabs d <= B ->
  Qabs ((95 # 100) * p + d) <= 20 * B.
Proof.
  intros Hp Hd.
  apply Qle_trans with (Qabs ((95 # 100) * p) + Qabs d);
    [apply Qabs_triangle |].
  rewrite Qabs_Qmult. rewrite (Qabs_pos (95 # 100)) by (unfold Qle; simpl; lia).
  lra.
Qed.

(** X14.  The simulated series stays bounded: when no random value exceeds
    [B] in absolute value, no entry of the series exceeds [20 * B], whatever
    its length ([20 = 1 / (1 - 0.95)]). *)
Theorem ar1_simulate_bounded (draw : nat -> Q) (T : nat) (B : Q) :
  (forall k, Qabs (draw k) <= B) ->
  exists (y : list Q) (n : nat),
    ar1_simulate draw T = Ok (y, n) /\
    forall i, (i < T)%nat -> Qabs (nth i y 0) <= 20 * B.
Proof.
  intro HB.
  destruct (ar1_simulate_facts draw T) as (y & E & L & Z & R).
  exists y, (T - 1)%nat. split; [exact E |].
  assert (B0 : 0 <= B).
  { apply Qle_trans with (Qabs (draw 0%nat)); [apply Qabs_nonneg | apply HB]. }
  induction i as [| i IH]; intro Hi.
  - rewrite (Z ltac:(lia)). rewrite Qabs_pos by apply Qle_refl. lra.
  - rewrite (R (S i) ltac:(lia)).
    replace (S i - 1)%nat with i by lia.
    apply ar1_step_bound; [apply IH; lia | apply HB].
Qed.

Lemma ar1_simulate_bounded_witness :
  exists (y : list Q) (n : nat),
    ar1_simulate (fun k => if Nat.even k then 1 else -1) 5 = Ok (y, n) /\
    forall i, (i < 5)%nat -> Qabs (nth i y 0) <= 20 * 1.
Proof.
  apply (ar1_simulate_bounded (fun k => if Nat.even k then 1 else -1) 5 1).
  intro k. destruct (Nat.even k); vm_compute; discriminate.
Defined.

(* ------------------------------------------------------------------ *)
(** ** The innovations of the ARMA(1,1) model *)








(* ------------------------------------------------------------------ *)
(** ** The seasonal component of the structural model *)

Lemma pattern_succ (c : Q) (tau : list Q) (n : nat) :
  concat (list_times [[c]; tau] (S n)) =
  (c :: tau) ++ concat (list_times [[c]; tau] n).
Proof.
  unfold list_times. cbn [repeat]. rewrite concat_cons, concat_app.
  cbn [concat]. rewrite app_nil_r. cbn [app]. reflexivity.
Qed.

Lemma pattern_length (c : Q) (tau : list Q) (n : nat) :
  length (concat (list_times [[c]; tau] n)) = (n * S (length tau))%nat.
Proof.
  induction n as [| n IH]; [reflexivity |].
  rewrite pattern_succ, length_app, IH. cbn [length]. lia.
Qed.

Lemma tt_repeat_length (a : list Q) (m : nat) :
  length (tt_repeat a m) = (length a * m)%nat.
Proof.
  unfold tt_repeat. induction a as [| u a IH]; [reflexivity |].
  cbn [flat_map]. rewrite length_app, repeat_length, IH. cbn [length]. lia.
Qed.

(** X20.  The mean [mu + s] can be built only for [T = S * S].  With a
    period [S >= 2], [S - 1] effects [tau], [S] levels [eta] (the shapes the
    notebook declares) and a state [mu] of length [T], the two additions go
    through exactly when the series has [S * S] observations; otherwise an
    addition raises. *)
Theorem seasonal_mean_shape (mu tau eta : list Q) (S0 T n : nat) :
  (2 <= S0)%nat ->
  S (length tau) = S0 ->
  length eta = S0 ->
  length mu = T ->
  n_years T S0 = Some n ->
  ((exists r, seasonal_mean mu tau eta S0 n = Ok r /\ length r = T) <->
   T = (S0 * S0)%nat) /\
  (T <> (S0 * S0)%nat ->
   seasonal_mean mu tau eta S0 n = Raise ValueError).
Proof.
  intros H2 Htau Heta Hmu Hn.
  unfold n_years in Hn. destruct (Nat.eqb_spec S0 0) as [Z | NZ]; [lia |].
  inversion Hn as [Hdiv]. clear Hn.
  unfold seasonal_mean, seasonal_s.
  destruct (T / S0)%nat as [| n'] eqn:Dn.
  { assert (NT : T <> (S0 * S0)%nat).
    { intro ET. rewrite ET, Nat.div_mul in Dn by exact NZ. lia. }
    cbn [list_times repeat concat tt_concatenate bind].
    split; [| intros _; reflexivity].
    split; [intros (r & C & _); discriminate C | intro C; contradiction]. }
  assert (Hc : tt_concatenate (list_times [[-1 * arr_sum tau]; tau] (S n'))
               = Ok (concat (list_times [[-1 * arr_sum tau]; tau] (S n'))))
    by reflexivity.
  rewrite Hc. cbn [bind]. rewrite <- Dn. unfold tt_add.
  rewrite pattern_length, tt_repeat_length, Htau, Heta.
  destruct (Nat.eqb_spec (T / S0 * S0) (S0 * S0)) as [E | NE]; cbn [bind].
  - rewrite zip_with_min_length, pattern_length, tt_repeat_length.
    rewrite Htau, Heta, E, Nat.min_id, Hmu.
    destruct (Nat.eqb_spec T (S0 * S0)) as [ET | NT].
    + split; [| intro C; congruence].
      split; [intros _; exact ET |]. intros _. eexists.
      split; [reflexivity |].
      rewrite zip_with_min_length, zip_with_min_length.
      rewrite pattern_length, tt_repeat_length, Htau, Heta, Hmu. lia.
    + split; [| intros _; reflexivity].
      split; [intros (r & C & _); discriminate C | intro C; congruence].
  - split.
    + split; [intros (r & C & _); discriminate C |].
      intro ET. exfalso. apply NE. rewrite ET.
      rewrite Nat.div_mul by exact NZ. reflexivity.
    + intros _. reflexivity.
Qed.

Lemma seasonal_mean_shape_witness :
  ((exists r,
       seasonal_mean [1; 2; 3; 4] [7] [10; 20] 2 2 = Ok r /\
       length r = 4%nat) <->
   4%nat = (2 * 2)%nat) /\
  (4%nat <> (2 * 2)%nat ->
   seasonal_mean [1; 2; 3; 4] [7] [10; 20] 2 2 = Raise ValueError).
Proof.
  apply (seasonal_mean_shape [1; 2; 3; 4] [7] [10; 20] 2 4 2);
    [lia | reflexivity | reflexivity | reflexivity | reflexivity].
Defined.
